(** * Verification of pkg/sources/chunker.go (chunked reading with a peek window)

    The development embeds the chunk reader of [pkg/sources/chunker.go]:
    the configuration builder ([applyOptions]) and the producer goroutine
    ([readInChunks]), together with the parts of the Go standard library
    it calls: [io.ReadFull], [bufio.Reader] ([NewReaderSize], [Read],
    [Peek], [fill]) and [errors.Is].

    Modelling choices.
    - A Go [int] is a 64-bit signed integer: a [Z] with the wrap-around of
      the additions of [applyOptions] written out ([GoInt.add]).
    - A byte slice is a record of its elements and its capacity.
    - The [io.Reader] handed to the chunk reader is a script of answers
      ([Reader]): a segment of bytes that one or several [Read] calls
      hand out, possibly with an error returned by the call that hands
      out the last of them.  After the script the reader answers
      [(0, io.EOF)] forever.  A [Read] never answers "no byte and no
      error", and the source is not itself a [*bufio.Reader].
    - Memory is not bounded: [make] panics on a negative length only.
    - The logger of the context is the list of the logged errors.
    - The [select] statement of the goroutine is resolved against a list
      of observations of its environment (is the context done, can the
      channel take the value, which ready case does the runtime pick). *)

From Stdlib Require Import List ZArith Lia Bool Arith PeanoNat.
From Stdlib Require Import Strings.Byte.
From Stdlib Require Strings.String.
Import String.StringSyntax.
Delimit Scope string_scope with string.
Import ListNotations.

Local Open Scope Z_scope.

(** ** Go integers *)

Module GoInt.

Definition MinInt : Z := - 2 ^ 63.
Definition MaxInt : Z := 2 ^ 63 - 1.

(** Two's complement wrap-around of a 64-bit signed integer. *)
Definition wrap (z : Z) : Z := (z + 2 ^ 63) mod 2 ^ 64 - 2 ^ 63.

Definition add (a b : Z) : Z := wrap (a + b).

Definition inRange (z : Z) : Prop := MinInt <= z <= MaxInt.

End GoInt.

(** ** Errors *)

(** The error values the chunk reader can meet: the sentinels of [io] and
    [bufio], any other error of the source ([ErrOther], told apart by an
    identifier), and an error wrapping another one (as [fmt.Errorf] with
    [%w] builds). *)
Inductive error : Type :=
| EOF
| ErrUnexpectedEOF
| ErrShortBuffer
| ErrNoProgress
| ErrBufferFull
| ErrNegativeCount
| ErrOther (id : nat)
| Wrap (id : nat) (inner : error).

(** [err == target] on error values. *)
Fixpoint error_eqb (a b : error) : bool :=
  match a, b with
  | EOF, EOF => true
  | ErrUnexpectedEOF, ErrUnexpectedEOF => true
  | ErrShortBuffer, ErrShortBuffer => true
  | ErrNoProgress, ErrNoProgress => true
  | ErrBufferFull, ErrBufferFull => true
  | ErrNegativeCount, ErrNegativeCount => true
  | ErrOther i, ErrOther j => Nat.eqb i j
  | Wrap i x, Wrap j y => Nat.eqb i j && error_eqb x y
  | _, _ => false
  end.

(** [errors.Is(err, target)]: [err] or an error it wraps is [target]. *)
Fixpoint errors_Is (err target : error) : bool :=
  error_eqb err target ||
  match err with
  | Wrap _ inner => errors_Is inner target
  | _ => false
  end.

(** [isErrAndNotEOF], chunker.go lines 157-165. *)
Definition isErrAndNotEOF (err : option error) : bool :=
  match err with
  | None => false
  | Some e =>
      if errors_Is e EOF || errors_Is e ErrUnexpectedEOF then false
      else true
  end.

(** ** Byte slices *)

Definition zeroByte : byte := x00.

Record slice : Type := mkSlice {
  elems : list byte;
  cap : nat
}.

(** The nil slice, the zero value of [ChunkResult.data]. *)
Definition nilSlice : slice := mkSlice [] 0.

(** [make([]byte, n)]. *)
Definition make (n : nat) : slice := mkSlice (repeat zeroByte n) n.

(** [s[:n]] for [n] within the capacity; the caller checks the bounds.
    Elements between the length and the capacity are zero as long as
    nothing was stored there, which is the case where it is used. *)
Definition reslice (s : slice) (n : nat) : slice :=
  mkSlice (firstn n (elems s) ++ repeat zeroByte (n - length (elems s)))
          (cap s).

(** [copy(dst, src)]: the first [min (len dst) (len src)] elements of
    [dst] are overwritten. *)
Definition copy (dst src : list byte) : list byte :=
  let k := Nat.min (length dst) (length src) in
  firstn k src ++ skipn k dst.

(** [copy(dst[off:], src)] seen from [dst]. *)
Definition copyAt (dst : list byte) (off : nat) (src : list byte)
  : list byte :=
  firstn off dst ++ copy (skipn off dst) src.

(** [append(s, xs...)]: in place when the capacity allows it.  Otherwise
    the runtime allocates; the new capacity is the runtime's choice and
    is modelled by doubling (the chunk reader never reaches that case,
    see [Peek_length]). *)
Definition append (s : slice) (xs : list byte) : slice :=
  let need := (length (elems s) + length xs)%nat in
  if (need <=? cap s)%nat then mkSlice (elems s ++ xs) (cap s)
  else mkSlice (elems s ++ xs) (Nat.max need (2 * cap s)).

(** ** The source: an [io.Reader] *)

(** [Bytes bs]: the bytes [bs] are available, without error.
    [BytesErr bs e]: the bytes [bs] are available and the call that hands
    out the last of them returns the error [e] with them ("it may return
    the (non-nil) error from the same call"); with no bytes this is a
    call that fails with [e] and no data. *)
Inductive event : Type :=
| Bytes (bs : list byte)
| BytesErr (bs : list byte) (e : error).

Definition Reader : Type := list event.

(** A call that fails with [e] and hands out nothing. *)
Definition Fail (e : error) : event := BytesErr [] e.

(** [Read(p)] with [len(p) = k].  A segment hands out at most [k] of its
    bytes and keeps the rest for the next call; an empty segment without
    error carries nothing and is skipped (a read does not answer "no
    byte, no error"); an error is returned once. *)
Fixpoint Read (r : Reader) (k : nat) : list byte * option error * Reader :=
  match r with
  | [] => ([], Some EOF, [])
  | Bytes [] :: r' => Read r' k
  | Bytes bs :: r' =>
      (firstn k bs, None,
       if (length bs <=? k)%nat then r' else Bytes (skipn k bs) :: r')
  | BytesErr bs e :: r' =>
      if (length bs <=? k)%nat then (bs, Some e, r')
      else (firstn k bs, None, BytesErr (skipn k bs) e :: r')
  end.

(** ** [bufio.Reader] *)

(** [buf] is the buffered and unread part [b.buf[b.r:b.w]], [bsize] is
    [len(b.buf)], [berr] the pending error [b.err]. *)
Record bufioReader : Type := mkBufio {
  buf : list byte;
  bsize : nat;
  berr : option error;
  rd : Reader
}.

Definition minReadBufferSize : Z := 16.
Definition maxConsecutiveEmptyReads : nat := 100.

(** [bufio.NewReaderSize(rd, size)], for a source that is not itself a
    [*bufio.Reader]. *)
Definition NewReaderSize (r : Reader) (size : Z) : bufioReader :=
  mkBufio [] (Z.to_nat (Z.max size minReadBufferSize)) None r.

(** [b.readErr()]: returns the pending error and clears it. *)
Definition readErr (b : bufioReader) : option error * bufioReader :=
  (berr b, mkBufio (buf b) (bsize b) None (rd b)).

(** The loop of [b.fill()]: at most [i] reads of the source into the
    free part of the buffer. *)
Fixpoint fill_loop (i : nat) (b : bufioReader) : bufioReader :=
  match i with
  | O => mkBufio (buf b) (bsize b) (Some ErrNoProgress) (rd b)
  | S i' =>
      let '(bs, e, r') := Read (rd b) (bsize b - length (buf b)) in
      let b' := mkBufio (buf b ++ bs) (bsize b) (berr b) r' in
      match e with
      | Some _ => mkBufio (buf b') (bsize b') e (rd b')
      | None =>
          if (0 <? length bs)%nat then b' else fill_loop i' b'
      end
  end.

(** [b.fill()].  It is only called with room in the buffer, so that its
    panic on a full buffer does not occur. *)
Definition fill (b : bufioReader) : bufioReader :=
  fill_loop maxConsecutiveEmptyReads b.

Definition isNone {A : Type} (o : option A) : bool :=
  match o with None => true | Some _ => false end.

(** The loop of [Peek]:
    [for b.w-b.r < n && b.w-b.r < len(b.buf) && b.err == nil]. *)
Fixpoint peek_fill (fuel : nat) (n : nat) (b : bufioReader) : bufioReader :=
  match fuel with
  | O => b
  | S fuel' =>
      if (length (buf b) <? n)%nat && (length (buf b) <? bsize b)%nat
         && isNone (berr b)
      then peek_fill fuel' n (fill b)
      else b
  end.

(** [b.Peek(n)]. *)
Definition Peek (b : bufioReader) (n : Z)
  : list byte * option error * bufioReader :=
  if n <? 0 then ([], Some ErrNegativeCount, b)
  else
    let k := Z.to_nat n in
    let b1 := peek_fill (S (bsize b)) k b in
    if (bsize b1 <? k)%nat then (buf b1, Some ErrBufferFull, b1)
    else if (length (buf b1) <? k)%nat then
      let '(e, b2) := readErr b1 in
      (buf b1, Some (match e with Some e' => e' | None => ErrBufferFull end),
       b2)
    else (firstn k (buf b1), None, b1).

(** [b.Read(p)] with [len(p) = k]. *)
Definition bufioRead (b : bufioReader) (k : nat)
  : list byte * option error * bufioReader :=
  if (k =? 0)%nat then
    if (0 <? length (buf b))%nat then ([], None, b)
    else let '(e, b') := readErr b in ([], e, b')
  else if (length (buf b) =? 0)%nat then
    match berr b with
    | Some _ => let '(e, b') := readErr b in ([], e, b')
    | None =>
        if (bsize b <=? k)%nat then
          (* Large read, empty buffer: read directly into p. *)
          let '(bs, e, r') := Read (rd b) k in
          (bs, e, mkBufio [] (bsize b) None r')
        else
          (* One read into the buffer. *)
          let '(bs, e, r') := Read (rd b) (bsize b) in
          if (length bs =? 0)%nat then
            ([], e, mkBufio [] (bsize b) None r')
          else
            (firstn k bs, None, mkBufio (skipn k bs) (bsize b) e r')
    end
  else (firstn k (buf b), None,
        mkBufio (skipn k (buf b)) (bsize b) (berr b) (rd b)).

(** ** [io.ReadAtLeast] and [io.ReadFull] *)

(** The loop [for n < min && err == nil] of [io.ReadAtLeast]; [acc] holds
    the bytes stored in [buf[:n]] so far, [len] is [len(buf)]. *)
Fixpoint readAtLeast_loop (fuel : nat) (b : bufioReader) (len min : nat)
  (acc : list byte) : list byte * option error * bufioReader :=
  match fuel with
  | O => (acc, None, b)
  | S fuel' =>
      if (length acc <? min)%nat then
        let '(bs, e, b') := bufioRead b (len - length acc) in
        match e with
        | None => readAtLeast_loop fuel' b' len min (acc ++ bs)
        | Some _ => (acc ++ bs, e, b')
        end
      else (acc, None, b)
  end.

Definition ReadAtLeast (b : bufioReader) (len min : nat)
  : list byte * option error * bufioReader :=
  if (len <? min)%nat then ([], Some ErrShortBuffer, b)
  else
    let '(bs, e, b') := readAtLeast_loop (S min) b len min [] in
    let e' :=
      if (min <=? length bs)%nat then None
      else
        match e with
        | Some EOF => if (0 <? length bs)%nat then Some ErrUnexpectedEOF
                      else e
        | _ => e
        end in
    (bs, e', b').

Definition ReadFull (b : bufioReader) (len : nat)
  : list byte * option error * bufioReader :=
  ReadAtLeast b len len.

(** ** The configuration builder, chunker.go lines 11-96 *)

Definition ChunkSize : Z := 10 * 1024.
Definition PeekSize : Z := 3 * 1024.
Definition TotalChunkSize : Z := ChunkSize + PeekSize.

(** The constant [smallChunkThresholdRatio = 0.5], as the fraction
    [ratioNum / ratioDen]. *)
Definition ratioNum : Z := 1.
Definition ratioDen : Z := 2.

(** [int(float64(x) * smallChunkThresholdRatio)]: the product truncated
    towards zero (exact for the sizes involved, far below [2 ^ 53]). *)
Definition scaleByRatio (x : Z) : Z := Z.quot (x * ratioNum) ratioDen.

Record chunkReaderConfig : Type := mkConfig {
  chunkSize : Z;
  totalSize : Z;
  peekSize : Z;
  smallChunkThreshold : Z
}.

(** A [ConfigOption] is a function on the configuration.  The type of
    the configuration is not exported, so that the options are the ones
    the package builds: [WithChunkSize] and [WithPeekSize]. *)
Inductive ConfigOption : Type :=
| WithChunkSize (size : Z)
| WithPeekSize (size : Z).

(** Calling the option [opt(config)]. *)
Definition callOption (opt : ConfigOption) (c : chunkReaderConfig)
  : chunkReaderConfig :=
  match opt with
  | WithChunkSize size =>
      mkConfig size (totalSize c) (peekSize c) (smallChunkThreshold c)
  | WithPeekSize size =>
      mkConfig (chunkSize c) (totalSize c) size (smallChunkThreshold c)
  end.

(** The literal of [applyOptions]; [totalSize] is left at its zero
    value. *)
Definition defaultConfig : chunkReaderConfig :=
  mkConfig ChunkSize 0 PeekSize (scaleByRatio (ChunkSize + PeekSize)).

(** [applyOptions], chunker.go lines 81-96. *)
Definition applyOptions (opts : list ConfigOption) : chunkReaderConfig :=
  let config := fold_left (fun c opt => callOption opt c) opts defaultConfig in
  mkConfig (chunkSize config)
           (GoInt.add (chunkSize config) (peekSize config))
           (peekSize config)
           (smallChunkThreshold config).

(** ** Results, the logger, the context and the channel *)

Record ChunkResult : Type := mkResult {
  data : slice;
  err : option error
}.

(** [cr.Bytes()] and [cr.Error()]. *)
Definition ResultBytes (cr : ChunkResult) : list byte := elems (data cr).
Definition ResultError (cr : ChunkResult) : option error := err cr.

(** One entry of the log: the error and the message. *)
Definition logEntry : Type := (error * String.string)%type.

(** One observation of the environment of the goroutine at its [select]:
    whether [ctx.Done()] is closed, whether the channel can take a value
    (the buffer of 64 results is not full), and which case the runtime
    picks when both can proceed (Go picks one of the ready cases at
    random). *)
Record selectEnv : Type := mkEnv {
  ctxDone : bool;
  sendReady : bool;
  pickSend : bool
}.

Inductive selectResult : Type :=
| SelDone      (* case <-ctx.Done() *)
| SelSent      (* case chunkResultChan <- chunkRes *)
| SelBlocked.  (* still waiting at the end of the observations *)

(** The [select] statement, chunker.go lines 142-146.  While no case can
    proceed the goroutine waits: the next observation is consulted. *)
Fixpoint selectSend (env : list selectEnv) : selectResult * list selectEnv :=
  match env with
  | [] => (SelBlocked, [])
  | e :: env' =>
      match ctxDone e, sendReady e with
      | true, true => if pickSend e then (SelSent, env') else (SelDone, env')
      | true, false => (SelDone, env')
      | false, true => (SelSent, env')
      | false, false => selectSend env'
      end
  end.

(** How the goroutine stands at the end of a run. *)
Inductive outcome : Type :=
| Closed      (* returned; the deferred close ran *)
| Panicked    (* a run-time panic (bad slice bounds or length) *)
| Blocked     (* waiting in select; the channel is open *)
| OutOfFuel.  (* the model stopped unrolling the loop *)

(** ** The producer, chunker.go lines 104-154 *)

(** What one turn of the [for] loop does up to its [select]. *)
Inductive iterResult : Type :=
| IterPanic
| IterReturn (b : bufioReader) (log : list logEntry)
| IterSend (chunkRes : ChunkResult) (readErr : option error)
           (b : bufioReader) (log : list logEntry).

Definition isSome {A : Type} (o : option A) : bool :=
  match o with None => false | Some _ => true end.

(** Lines 113-140. *)
Definition iteration (config : chunkReaderConfig) (b : bufioReader)
  (log : list logEntry) : iterResult :=
  (* chunkBytes := make([]byte, config.totalSize) *)
  if totalSize config <? 0 then IterPanic
  else
    let chunkBytes0 := make (Z.to_nat (totalSize config)) in
    (* chunkBytes = chunkBytes[:config.chunkSize] *)
    if (chunkSize config <? 0)
       || (Z.of_nat (cap chunkBytes0) <? chunkSize config)
    then IterPanic
    else
      let chunkBytes1 := reslice chunkBytes0 (Z.to_nat (chunkSize config)) in
      (* n, err := io.ReadFull(chunkReader, chunkBytes) *)
      let '(bs, rerr, b1) := ReadFull b (length (elems chunkBytes1)) in
      let n := length bs in
      let chunkBytes := mkSlice (copy (elems chunkBytes1) bs)
                                (cap chunkBytes1) in
      let '(d, b2) :=
        if (0 <? n)%nat then
          let '(peekData, _, b2) :=
            Peek b1 (totalSize config - Z.of_nat n) in
          if Z.of_nat n + Z.of_nat (length peekData)
             <? smallChunkThreshold config
          then
            let optimizedChunk := make (n + length peekData) in
            let o1 := copy (elems optimizedChunk)
                           (firstn n (elems chunkBytes)) in
            let o2 := copyAt o1 n peekData in
            (mkSlice o2 (cap optimizedChunk), b2)
          else
            (append (reslice chunkBytes n) peekData, b2)
        else (nilSlice, b1) in
      if isErrAndNotEOF rerr then
        match rerr with
        | Some e =>
            IterSend (mkResult d rerr) rerr b2
                     (log ++ [(e, "error reading chunk"%string)])
        | None => IterSend (mkResult d rerr) rerr b2 log
        end
      else if (0 <? n)%nat then IterSend (mkResult d None) rerr b2 log
      else IterReturn b2 log.

(** The result of a run: the results sent on the channel, in order, the
    log, and where the goroutine stands. *)
Record run : Type := mkRun {
  delivered : list ChunkResult;
  logged : list logEntry;
  final : outcome
}.

Definition emit (cr : ChunkResult) (r : run) : run :=
  mkRun (cr :: delivered r) (logged r) (final r).

(** The [for] loop, lines 112-151; [fuel] bounds the number of turns. *)
Fixpoint loop (fuel : nat) (config : chunkReaderConfig)
  (env : list selectEnv) (b : bufioReader) (log : list logEntry) : run :=
  match fuel with
  | O => mkRun [] log OutOfFuel
  | S fuel' =>
      match iteration config b log with
      | IterPanic => mkRun [] log Panicked
      | IterReturn _ log' => mkRun [] log' Closed
      | IterSend chunkRes rerr b' log' =>
          match selectSend env with
          | (SelDone, _) => mkRun [] log' Closed
          | (SelBlocked, _) => mkRun [] log' Blocked
          | (SelSent, env') =>
              if isSome rerr then mkRun [chunkRes] log' Closed
              else emit chunkRes (loop fuel' config env' b' log')
          end
      end
  end.

(** [readInChunks].  Every turn that goes on uses up an observation, so
    that [S (length env)] turns are enough (see [readInChunks_total]). *)
Definition readInChunks (env : list selectEnv) (reader : Reader)
  (config : chunkReaderConfig) : run :=
  let chunkReader := NewReaderSize reader (chunkSize config) in
  loop (S (length env)) config env chunkReader [].

(** [NewChunkReader(opts...)] applied to a context and a reader. *)
Definition NewChunkReader (opts : list ConfigOption)
  (env : list selectEnv) (reader : Reader) : run :=
  readInChunks env reader (applyOptions opts).

(** ** Running the model *)

Definition bytesOf (s : String.string) : list byte :=
  String.list_byte_of_string s.

(** An environment in which the context is never done and the channel
    always has room. *)
Definition openEnv (k : nat) : list selectEnv :=
  repeat (mkEnv false true true) k.

Definition alphabet : list byte := bytesOf "abcdefghijklmnopqrstuvwxyz"%string.

Definition smallOpts : list ConfigOption := [WithChunkSize 10; WithPeekSize 3].


Local Open Scope nat_scope.

(** * The vocabulary of the specification *)

(** The buffered part fits the buffer. *)
Definition bwf (b : bufioReader) : Prop := length (buf b) <= bsize b.

(** The configuration lets the working buffer be built: no panic. *)
Definition usable (config : chunkReaderConfig) : Prop :=
  (0 <= chunkSize config <= totalSize config)%Z.

Definition readErrorMessage : String.string := "error reading chunk"%string.

(** The log after the classification of the error of the read. *)
Definition logAfter (rerr : option error) (log : list logEntry)
  : list logEntry :=
  match rerr with
  | Some e => if isErrAndNotEOF rerr then log ++ [(e, readErrorMessage)]
              else log
  | None => log
  end.

(** The capacity of the buffer that is sent. *)
Definition sentCap (config : chunkReaderConfig) (size : nat) : nat :=
  if (Z.of_nat size <? smallChunkThreshold config)%Z then size
  else Z.to_nat (totalSize config).

(** The script holds no failure: a finite byte source read without I/O
    failure, in segments of any sizes; the last bytes may come together
    with [io.EOF]. *)
Fixpoint noFailure (r : Reader) : bool :=
  match r with
  | [] => true
  | Bytes _ :: r' => noFailure r'
  | BytesErr _ e :: r' =>
      error_eqb e EOF && match r' with [] => true | _ => false end
  end.

(** The bytes of the source. *)
Fixpoint content (r : Reader) : list byte :=
  match r with
  | [] => []
  | Bytes bs :: r' => bs ++ content r'
  | BytesErr bs _ :: r' => bs ++ content r'
  end.

(** The bytes the buffered reader has still to hand out. *)
Definition bcontent (b : bufioReader) : list byte := buf b ++ content (rd b).

Definition bclean (b : bufioReader) : Prop :=
  noFailure (rd b) = true /\ bwf b /\
  (berr b = None \/ (berr b = Some EOF /\ content (rd b) = [])).

(** The chunks the specification describes for a content [s], a chunk
    size [C] and a peek window of [W] bytes: every chunk holds the next
    [C] bytes followed by the [W] bytes after them, as far as the content
    goes, and the next chunk starts [C] bytes further. *)
Fixpoint chunksFrom (fuel C W : nat) (s : list byte) : list (list byte) :=
  match fuel with
  | O => []
  | S fuel' =>
      match s with
      | [] => []
      | _ => (firstn C s ++ firstn W (skipn C s))
               :: chunksFrom fuel' C W (skipn C s)
      end
  end.

Definition expectedChunks (C W : nat) (s : list byte) : list (list byte) :=
  chunksFrom (length s) C W s.

(** The first [C] bytes of every chunk but the last, then the last
    chunk. *)
Definition reassemble (C : nat) (chunks : list (list byte)) : list byte :=
  concat (map (firstn C) (removelast chunks)) ++ last chunks [].

(** The last [P] bytes of a buffer. *)
Definition lastn (P : nat) (l : list byte) : list byte :=
  skipn (length l - P) l.

(** The ceiling of [n / C]. *)
Definition ceilDiv (n C : nat) : nat := (n + C - 1) / C.

(** The context is never done in the observations: the run is not
    cancelled. *)
Definition neverDone (env : list selectEnv) : bool :=
  forallb (fun e => negb (ctxDone e)) env.

(** The number of observations at which the channel can take a value:
    the number of results the consumer makes room for. *)
Definition readyCount (env : list selectEnv) : nat :=
  length (filter sendReady env).

(** The sizes the specification expects: a positive chunk size, a peek
    size that is not negative, and a sum that is a Go [int]. *)
Definition sizesExpected (config : chunkReaderConfig) : Prop :=
  (0 < chunkSize config)%Z /\ (0 <= peekSize config)%Z /\
  (chunkSize config + peekSize config <= GoInt.MaxInt)%Z.

(** The peek window: the peek size, which the buffer of the buffered
    reader bounds. *)
Definition peekWindow (config : chunkReaderConfig) : nat :=
  Nat.min (Z.to_nat (peekSize config))
          (Z.to_nat (Z.max (chunkSize config) minReadBufferSize)).

(** The overlap law as the specification states it, for one run: for two
    consecutive delivered chunks of which the second is not the last,
    the last [P] bytes of the first are the first [P] bytes of the
    second. *)
Definition overlapLaw (opts : list ConfigOption) (env : list selectEnv)
  (reader : Reader) : Prop :=
  let P := Z.to_nat (peekSize (applyOptions opts)) in
  let ds := delivered (NewChunkReader opts env reader) in
  forall i a b,
    nth_error ds i = Some a -> nth_error ds (S i) = Some b ->
    S (S i) < length ds ->
    lastn P (ResultBytes a) = firstn P (ResultBytes b).

Definition failingReader : Reader :=
  [Bytes (firstn 4 alphabet); Fail (ErrOther 7)].

(** The context is done at every observation. *)
Definition alreadyCancelled (env : list selectEnv) : Prop :=
  env <> [] /\ forallb ctxDone env = true.

(** C8 as the specification states it: with a context that is already
    cancelled, nothing is delivered and the channel is closed. *)
Definition cancelledDeliversNothing : Prop :=
  forall env reader config,
    usable config -> alreadyCancelled env ->
    delivered (readInChunks env reader config) = []
    /\ final (readInChunks env reader config) = Closed.

(** What is delivered: the bytes, the capacity and the error of every
    result, the log and the state of the goroutine. *)
Definition summary (r : run)
  : list (list byte * nat * option error) * list logEntry * outcome :=
  (map (fun cr => (ResultBytes cr, cap (data cr), ResultError cr))
       (delivered r),
   logged r, final r).

(** The chunk size the options choose: the size of the last
    [WithChunkSize], or [d] when there is none. *)
Fixpoint chosenChunk (opts : list ConfigOption) (d : Z) : Z :=
  match opts with
  | [] => d
  | WithChunkSize size :: opts' => chosenChunk opts' size
  | WithPeekSize _ :: opts' => chosenChunk opts' d
  end.

(** The peek size the options choose. *)
Fixpoint chosenPeek (opts : list ConfigOption) (d : Z) : Z :=
  match opts with
  | [] => d
  | WithChunkSize _ :: opts' => chosenPeek opts' d
  | WithPeekSize size :: opts' => chosenPeek opts' size
  end.

(** The error at the end of a chain of wrappings. *)
Fixpoint rootCause (e : error) : error :=
  match e with
  | Wrap _ inner => rootCause inner
  | _ => e
  end.

(** [l1] is a prefix of [l2]. *)
Definition prefixOf {A : Type} (l1 l2 : list A) : Prop :=
  exists tl, l2 = l1 ++ tl.

(** An observation at which the context is done and the channel is
    full: the [select] can only take the cancellation case. *)
Definition cancelledFull (e : selectEnv) : bool :=
  ctxDone e && negb (sendReady e).

(** * Properties *)

(** ** The example of the specification *)

(** Chunk size 10, peek size 3 and the 26 letters: bytes 0 to 13, 10 to
    23 and 20 to 26.  The threshold is 6656, so that every buffer is
    tightly sized. *)
Example alphabet_chunks :
  summary (NewChunkReader smallOpts (openEnv 3) [Bytes alphabet])
  = ([(bytesOf "abcdefghijklm"%string, 13, None);
      (bytesOf "klmnopqrstuvw"%string, 13, None);
      (bytesOf "uvwxyz"%string, 6, None)], [], Closed).
Proof. vm_compute. reflexivity. Qed.

(** The same with short reads, the last bytes arriving with [io.EOF],
    and a consumer that makes the producer wait. *)
Example alphabet_chunks_short_reads :
  summary (NewChunkReader smallOpts
             [mkEnv false false true; mkEnv false true true;
              mkEnv false true false; mkEnv false false false;
              mkEnv false true true]
             [Bytes (firstn 3 alphabet); BytesErr (skipn 3 alphabet) EOF])
  = ([(bytesOf "abcdefghijklm"%string, 13, None);
      (bytesOf "klmnopqrstuvw"%string, 13, None);
      (bytesOf "uvwxyz"%string, 6, None)], [], Closed).
Proof. vm_compute. reflexivity. Qed.

(** With the default sizes a chunk of 26 bytes is below the threshold
    and tightly sized; a chunk of 7000 bytes keeps the working buffer of
    13312 bytes. *)
Example default_sizes_capacity :
  map (fun cr => (length (ResultBytes cr), cap (data cr)))
      (delivered (NewChunkReader [] (openEnv 1) [Bytes alphabet]))
  = [(26, 26)] /\
  map (fun cr => (length (ResultBytes cr), cap (data cr)))
      (delivered (NewChunkReader [] (openEnv 1)
                    [Bytes (repeat zeroByte (Z.to_nat 7000))]))
  = [(Z.to_nat 7000, Z.to_nat 13312)].
Proof. split; vm_compute; reflexivity. Qed.

(** A source that fails after four bytes: one result with the bytes and
    the error, one entry in the log. *)
Example failure_after_data :
  summary (NewChunkReader smallOpts (openEnv 3)
             [Bytes (firstn 4 alphabet); Fail (ErrOther 7)])
  = ([(bytesOf "abcd"%string, 4, Some (ErrOther 7))],
     [(ErrOther 7, readErrorMessage)], Closed).
Proof. vm_compute. reflexivity. Qed.

(** Sizes that are not usable: a chunk size of zero delivers nothing, a
    negative peek size panics when the working buffer is resliced. *)
Example unexpected_sizes :
  summary (NewChunkReader [WithChunkSize 0] (openEnv 1) [Bytes alphabet])
  = ([], [], Closed) /\
  summary (NewChunkReader [WithPeekSize (-1)] (openEnv 1) [Bytes alphabet])
  = ([], [], Panicked).
Proof. split; vm_compute; reflexivity. Qed.

(** ** Slices *)

Lemma copy_prefix (dst src : list byte) :
  length src <= length dst ->
  copy dst src = src ++ skipn (length src) dst.
Proof.
  intros H. unfold copy. rewrite Nat.min_r by assumption.
  now rewrite firstn_all.
Qed.

Lemma copy_length (dst src : list byte) :
  length (copy dst src) = length dst.
Proof.
  unfold copy. rewrite length_app, length_firstn, length_skipn. lia.
Qed.

Lemma skipn_repeat (x : byte) (k n : nat) :
  skipn k (repeat x n) = repeat x (n - k).
Proof.
  revert n. induction k as [|k IH]; intros [|n]; simpl; auto.
Qed.

(** The tightly sized buffer holds the core bytes followed by the peeked
    bytes. *)
Lemma optimized_elems (core peek : list byte) :
  copyAt (copy (elems (make (length core + length peek))) core)
         (length core) peek
  = core ++ peek.
Proof.
  unfold make, copyAt; simpl.
  rewrite copy_prefix by (rewrite repeat_length; lia).
  rewrite skipn_repeat.
  replace (length core + length peek - length core) with (length peek) by lia.
  rewrite firstn_app, firstn_all, Nat.sub_diag, firstn_O, app_nil_r.
  rewrite skipn_app, skipn_all, Nat.sub_diag, skipn_O. simpl.
  rewrite copy_prefix by (rewrite repeat_length; lia).
  rewrite skipn_repeat, Nat.sub_diag. simpl. now rewrite app_nil_r.
Qed.

(** The working buffer after the read: its first bytes are the bytes
    read. *)
Lemma working_prefix (total size : nat) (bs : list byte) :
  length bs <= size ->
  firstn (length bs)
         (copy (elems (reslice (make total) size)) bs) = bs.
Proof.
  intros H. rewrite copy_prefix.
  - now rewrite firstn_app, firstn_all, Nat.sub_diag, firstn_O, app_nil_r.
  - unfold reslice, make; simpl.
    rewrite length_app, length_firstn, !repeat_length. lia.
Qed.

(** The working buffer resliced to the bytes read and extended in place
    by the peeked bytes. *)
Lemma working_append (total size : nat) (core peek : list byte) :
  length core <= size -> length core + length peek <= total ->
  append (reslice (mkSlice (copy (elems (reslice (make total) size)) core)
                           total)
                  (length core)) peek
  = mkSlice (core ++ peek) total.
Proof.
  intros H1 H2. unfold append.
  assert (He : elems (reslice
                 (mkSlice (copy (elems (reslice (make total) size)) core)
                          total) (length core)) = core).
  { unfold reslice at 1. cbn [elems].
    rewrite working_prefix by assumption.
    rewrite copy_length. unfold reslice, make. cbn [elems].
    rewrite length_app, length_firstn, !repeat_length.
    replace (length core - _) with 0 by lia.
    simpl. apply app_nil_r. }
  rewrite He. cbn [cap reslice].
  replace (length core + length peek <=? total) with true
    by (symmetry; apply Nat.leb_le; lia).
  reflexivity.
Qed.

Lemma reslice_length (total size : nat) :
  length (elems (reslice (make total) size)) = size.
Proof.
  unfold reslice, make; simpl.
  rewrite length_app, length_firstn, !repeat_length. lia.
Qed.

(** ** Errors *)

Lemma error_eqb_refl (e : error) : error_eqb e e = true.
Proof.
  induction e; simpl; auto using Nat.eqb_refl.
  now rewrite Nat.eqb_refl, IHe.
Qed.

Lemma error_eqb_eq (a b : error) : error_eqb a b = true <-> a = b.
Proof.
  split.
  - revert b. induction a; intros [] H; simpl in H; try discriminate; auto.
    + apply Nat.eqb_eq in H. now subst.
    + apply andb_true_iff in H as [H1 H2].
      apply Nat.eqb_eq in H1. apply IHa in H2. now subst.
  - intros ->. apply error_eqb_refl.
Qed.

(** The two end-of-stream sentinels, and whatever wraps them, are not
    reportable. *)
Lemma isErrAndNotEOF_EOF : isErrAndNotEOF (Some EOF) = false.
Proof. reflexivity. Qed.

Lemma isErrAndNotEOF_UnexpectedEOF :
  isErrAndNotEOF (Some ErrUnexpectedEOF) = false.
Proof. reflexivity. Qed.

(** ** The source and the buffered reader, for any script *)

Lemma Read_length {r : Reader} {k : nat} {bs e r'} :
  Read r k = (bs, e, r') -> length bs <= k.
Proof.
  revert bs e r'. induction r as [|[seg|seg x] r IH]; simpl; intros bs e r' H.
  - inversion H; subst; simpl; lia.
  - destruct seg as [|c seg]; [eauto|].
    inversion H; subst. rewrite length_firstn. lia.
  - destruct (length seg <=? k) eqn:Hl; inversion H; subst.
    + now apply Nat.leb_le.
    + rewrite length_firstn. lia.
Qed.

(** A read never answers "no byte and no error". *)
Lemma Read_progress {r : Reader} {k : nat} {bs e r'} :
  Read r k = (bs, e, r') -> 0 < k ->
  (e = None /\ bs <> []) \/ e <> None.
Proof.
  revert bs e r'.
  induction r as [|[seg|seg x] r IH]; simpl; intros bs e r' H Hk.
  - inversion H; subst. right. discriminate.
  - destruct seg as [|c seg]; [eauto|].
    inversion H; subst. left. split; [reflexivity|].
    destruct k; [lia|]. simpl. discriminate.
  - destruct (length seg <=? k) eqn:Hl; inversion H; subst.
    + right. discriminate.
    + left. split; [reflexivity|]. apply Nat.leb_gt in Hl.
      destruct seg; [simpl in Hl; lia|]. destruct k; [lia|]. discriminate.
Qed.

Lemma fill_loop_spec (i : nat) (b : bufioReader) :
  length (buf b) < bsize b ->
  let b' := fill_loop (S i) b in
  bsize b' = bsize b /\ bwf b' /\
  exists bs e r', Read (rd b) (bsize b - length (buf b)) = (bs, e, r') /\
    buf b' = buf b ++ bs /\ rd b' = r' /\
    ((e = None /\ bs <> [] /\ berr b' = berr b) \/
     (e <> None /\ berr b' = e)).
Proof.
  intros Hroom. simpl.
  destruct (Read (rd b) (bsize b - length (buf b))) as [[bs e] r'] eqn:HR.
  pose proof (Read_length HR) as Hlen.
  destruct (Read_progress HR ltac:(lia)) as [[-> Hne]|Hne].
  - destruct bs as [|c bs]; [congruence|]. simpl.
    split; [reflexivity|]. split.
    + unfold bwf; simpl. rewrite length_app. simpl in *. lia.
    + exists (c :: bs), None, r'. repeat split; auto.
  - destruct e as [e|]; [|congruence]. simpl.
    split; [reflexivity|]. split.
    + unfold bwf; simpl. rewrite length_app. lia.
    + exists bs, (Some e), r'. repeat split; auto.
Qed.

Lemma fill_spec (b : bufioReader) :
  length (buf b) < bsize b ->
  bsize (fill b) = bsize b /\ bwf (fill b) /\
  exists bs e r', Read (rd b) (bsize b - length (buf b)) = (bs, e, r') /\
    buf (fill b) = buf b ++ bs /\ rd (fill b) = r' /\
    ((e = None /\ bs <> [] /\ berr (fill b) = berr b) \/
     (e <> None /\ berr (fill b) = e)).
Proof. intros H. exact (fill_loop_spec 99 b H). Qed.

(** The fuel given to the loop of [Peek] is enough: the loop is left by
    its own condition. *)
Lemma peek_fill_exit (fuel n : nat) (b : bufioReader) :
  bwf b -> bsize b - length (buf b) < fuel ->
  let b' := peek_fill fuel n b in
  bsize b' = bsize b /\ bwf b' /\
  (n <= length (buf b') \/ bsize b' <= length (buf b') \/ berr b' <> None).
Proof.
  revert b. induction fuel as [|fuel IH]; intros b Hwf Hfuel; [lia|].
  simpl.
  destruct (length (buf b) <? n) eqn:H1; simpl;
    [|apply Nat.ltb_ge in H1; auto].
  destruct (length (buf b) <? bsize b) eqn:H2; simpl;
    [|apply Nat.ltb_ge in H2; auto].
  destruct (berr b) as [e|] eqn:H3; simpl.
  { repeat split; auto. right; right. congruence. }
  apply Nat.ltb_lt in H2.
  destruct (fill_spec b H2) as (Hs & Hw & bs & e & r' & HR & Hb & _ & Hcase).
  destruct Hcase as [(-> & Hne & He)|(Hne & He)].
  - assert (Hlt : bsize (fill b) - length (buf (fill b)) < fuel).
    { rewrite Hs, Hb, length_app. destruct bs; [congruence|]. simpl. lia. }
    destruct (IH (fill b) Hw Hlt) as (Hs' & Hw' & Hex).
    rewrite Hs' in *. rewrite Hs in *. auto.
  - destruct fuel as [|fuel]; simpl.
    + repeat split; auto. right; right. congruence.
    + rewrite He. destruct e as [e|]; [|congruence].
      rewrite andb_false_r. repeat split; auto.
      right; right. rewrite He. discriminate.
Qed.

Lemma Peek_spec {b : bufioReader} {n : Z} {pd e b'} :
  bwf b -> Peek b n = (pd, e, b') ->
  bsize b' = bsize b /\ bwf b' /\ (Z.of_nat (length pd) <= Z.max n 0)%Z.
Proof.
  intros Hwf. unfold Peek.
  destruct (n <? 0)%Z eqn:Hn.
  { intros H; inversion H; subst. simpl. repeat split; auto. lia. }
  apply Z.ltb_ge in Hn.
  destruct (peek_fill_exit (S (bsize b)) (Z.to_nat n) b Hwf ltac:(lia))
    as (Hs & Hw & _).
  set (b1 := peek_fill (S (bsize b)) (Z.to_nat n) b) in *.
  destruct (bsize b1 <? Z.to_nat n) eqn:H1.
  { intros H; inversion H; subst. apply Nat.ltb_lt in H1.
    unfold bwf in Hw. repeat split; auto. lia. }
  destruct (length (buf b1) <? Z.to_nat n) eqn:H2.
  { simpl. intros H; inversion H; subst; simpl. apply Nat.ltb_lt in H2.
    repeat split; auto. lia. }
  intros H; inversion H; subst. repeat split; auto.
  rewrite length_firstn. lia.
Qed.

(** The peeked bytes fit the room the working buffer has left, so that
    [append] stays in place. *)
Lemma Peek_length {b : bufioReader} {n : Z} {pd e b'} :
  bwf b -> (0 <= n)%Z -> Peek b n = (pd, e, b') ->
  length pd <= Z.to_nat n.
Proof.
  intros Hwf Hn H. destruct (Peek_spec Hwf H) as (_ & _ & Hl). lia.
Qed.

Lemma bufioRead_spec {b : bufioReader} {k : nat} {bs e b'} :
  bwf b -> 0 < k -> bufioRead b k = (bs, e, b') ->
  bsize b' = bsize b /\ bwf b' /\ length bs <= k /\
  (e = None -> bs <> []).
Proof.
  intros Hwf Hk. unfold bufioRead.
  destruct (k =? 0) eqn:Hk0; [apply Nat.eqb_eq in Hk0; lia|].
  destruct (length (buf b) =? 0) eqn:Hb0.
  - apply Nat.eqb_eq in Hb0.
    destruct (berr b) as [x|] eqn:He.
    + simpl. rewrite He. intros H; inversion H; subst; simpl.
      unfold bwf; simpl. repeat split; auto; try lia. discriminate.
    + destruct (bsize b <=? k) eqn:Hlarge.
      * destruct (Read (rd b) k) as [[bs0 e0] r0] eqn:HR.
        intros H; inversion H; subst; simpl.
        pose proof (Read_length HR).
        unfold bwf; simpl. repeat split; auto; try lia.
        intros ->. destruct (Read_progress HR Hk) as [[_ ?]|?];
          congruence.
      * destruct (Read (rd b) (bsize b)) as [[bs0 e0] r0] eqn:HR.
        pose proof (Read_length HR).
        destruct (length bs0 =? 0) eqn:Hz.
        -- intros H'; inversion H'; subst; simpl.
           apply Nat.eqb_eq in Hz. apply length_zero_iff_nil in Hz. subst.
           unfold bwf; simpl. repeat split; auto; try lia.
           intros ->.
           apply Nat.leb_gt in Hlarge.
           destruct (Read_progress HR ltac:(lia)) as [[_ ?]|?];
             congruence.
        -- intros H'; inversion H'; subst; simpl.
           apply Nat.eqb_neq in Hz.
           unfold bwf; simpl. rewrite length_skipn, length_firstn.
           repeat split; auto; try lia.
           intros _. destruct bs0; [simpl in Hz; lia|].
           destruct k; [lia|]. simpl. discriminate.
  - apply Nat.eqb_neq in Hb0.
    intros H; inversion H; subst; simpl.
    unfold bwf in *; simpl. rewrite length_skipn, length_firstn.
    repeat split; auto; try lia.
    intros _. destruct (buf b); [simpl in Hb0; lia|].
    destruct k; [lia|]. simpl. discriminate.
Qed.

(** The loop of [io.ReadAtLeast] is left by its own condition, with at
    most [len] bytes read. *)
Lemma readAtLeast_loop_spec (fuel : nat) (b : bufioReader) (len min : nat)
  (acc : list byte) bs e b' :
  bwf b -> min <= len -> length acc <= len -> min - length acc < fuel ->
  readAtLeast_loop fuel b len min acc = (bs, e, b') ->
  bsize b' = bsize b /\ bwf b' /\ length bs <= len /\
  (exists tl, bs = acc ++ tl) /\
  (min <= length bs \/ e <> None).
Proof.
  revert b acc. induction fuel as [|fuel IH]; intros b acc Hwf Hml Hacc Hf;
    [lia|].
  simpl. destruct (length acc <? min) eqn:Hlt.
  - apply Nat.ltb_lt in Hlt.
    destruct (bufioRead b (len - length acc)) as [[bs0 e0] b0] eqn:HR.
    destruct (bufioRead_spec (k := len - length acc) Hwf ltac:(lia) HR) as (Hs & Hw & Hl & Hp).
    destruct e0 as [x|].
    + intros H; inversion H; subst. rewrite length_app.
      repeat split; auto; try lia; eauto. right. discriminate.
    + specialize (Hp eq_refl).
      assert (0 < length bs0) by (destruct bs0; [congruence|simpl; lia]).
      intros H'.
      apply IH in H'; auto; rewrite ?length_app; try lia.
      destruct H' as (Hs' & Hw' & Hl' & (tl & ->) & Hex).
      rewrite Hs' in *. repeat split; auto.
      exists (bs0 ++ tl). now rewrite app_assoc.
  - apply Nat.ltb_ge in Hlt.
    intros H; inversion H; subst.
    repeat split; auto. exists []. now rewrite app_nil_r.
Qed.

Lemma ReadFull_spec {b : bufioReader} {len : nat} {bs e b'} :
  bwf b -> ReadFull b len = (bs, e, b') ->
  bsize b' = bsize b /\ bwf b' /\ length bs <= len /\
  (e = None <-> length bs = len).
Proof.
  intros Hwf. unfold ReadFull, ReadAtLeast.
  rewrite Nat.ltb_irrefl.
  destruct (readAtLeast_loop (S len) b len len []) as [[bs0 e0] b0] eqn:HL.
  apply readAtLeast_loop_spec in HL; simpl; auto; try lia.
  destruct HL as (Hs & Hw & Hl & _ & Hex).
  intros H; inversion H; subst. repeat split; auto.
  - destruct (len <=? length bs) eqn:Hc.
    + apply Nat.leb_le in Hc. lia.
    + apply Nat.leb_gt in Hc. destruct Hex as [?|Hne]; [lia|].
      destruct e0 as [[]|]; try congruence;
        try discriminate.
      destruct (0 <? length bs); discriminate.
  - intros Heq. rewrite Heq, Nat.leb_refl. reflexivity.
Qed.

(** ** One turn of the loop, for any script *)

Lemma iteration_panics (config : chunkReaderConfig) b log :
  ~ usable config -> iteration config b log = IterPanic.
Proof.
  unfold usable, iteration. intros H.
  destruct (totalSize config <? 0)%Z eqn:H1; [reflexivity|].
  apply Z.ltb_ge in H1. simpl.
  destruct (chunkSize config <? 0)%Z eqn:H2; [reflexivity|].
  apply Z.ltb_ge in H2. simpl.
  destruct (Z.of_nat (Z.to_nat (totalSize config)) <? chunkSize config)%Z
    eqn:H3; [reflexivity|].
  apply Z.ltb_ge in H3. lia.
Qed.

(** What a turn does, read off the code: the read, then the peek when
    something was read, the buffer assembled from both, and the
    classification of the error of the read. *)
Lemma iteration_spec (config : chunkReaderConfig) b log :
  bwf b -> usable config ->
  exists bs rerr b1,
    ReadFull b (Z.to_nat (chunkSize config)) = (bs, rerr, b1) /\
    ((bs = [] /\
      iteration config b log =
        if isErrAndNotEOF rerr
        then IterSend (mkResult nilSlice rerr) rerr b1 (logAfter rerr log)
        else IterReturn b1 log)
     \/
     (bs <> [] /\ exists pd pe b2,
        Peek b1 (totalSize config - Z.of_nat (length bs)) = (pd, pe, b2) /\
        iteration config b log =
          IterSend
            (mkResult (mkSlice (bs ++ pd)
                               (sentCap config (length bs + length pd)))
                      (if isErrAndNotEOF rerr then rerr else None))
            rerr b2 (logAfter rerr log))).
Proof.
  intros Hwf [Hc0 HcT]. unfold iteration.
  destruct (totalSize config <? 0)%Z eqn:H1; [apply Z.ltb_lt in H1; lia|].
  destruct (chunkSize config <? 0)%Z eqn:H2; [apply Z.ltb_lt in H2; lia|].
  simpl cap.
  destruct (Z.of_nat (Z.to_nat (totalSize config)) <? chunkSize config)%Z
    eqn:H3; [apply Z.ltb_lt in H3; lia|].
  simpl orb. cbv iota.
  rewrite reslice_length.
  destruct (ReadFull b (Z.to_nat (chunkSize config))) as [[bs rerr] b1] eqn:HR.
  destruct (ReadFull_spec Hwf HR) as (Hs & Hw & Hl & Hfull).
  exists bs, rerr, b1. split; [reflexivity|].
  destruct bs as [|c bs].
  - left. split; [reflexivity|]. simpl.
    unfold logAfter.
    destruct (isErrAndNotEOF rerr) eqn:Hrep; [|reflexivity].
    destruct rerr; [reflexivity|discriminate].
  - right. split; [discriminate|].
    set (core := c :: bs) in *.
    assert (Hpos : (0 <? length core) = true) by reflexivity.
    rewrite Hpos.
    destruct (Peek b1 (totalSize config - Z.of_nat (length core)))
      as [[pd pe] b2] eqn:HP.
    assert (Hpl : length pd
                  <= Z.to_nat (totalSize config - Z.of_nat (length core)))
      by (eapply Peek_length; [exact Hw| |exact HP]; lia).
    exists pd, pe, b2. split; [reflexivity|].
    unfold sentCap. rewrite Nat2Z.inj_add.
    assert (Hfit : (length core + length pd
                    <=? Z.to_nat (totalSize config)) = true)
      by (apply Nat.leb_le; lia).
    destruct (Z.of_nat (length core) + Z.of_nat (length pd)
              <? smallChunkThreshold config)%Z.
    + cbn [elems cap make].
      change (repeat zeroByte (length core + length pd))
        with (elems (make (length core + length pd))).
      change (copy (firstn (Z.to_nat (chunkSize config))
                      (repeat zeroByte (Z.to_nat (totalSize config)))
                    ++ repeat zeroByte
                         (Z.to_nat (chunkSize config)
                          - length (repeat zeroByte
                                      (Z.to_nat (totalSize config))))) core)
        with (copy (elems (reslice (make (Z.to_nat (totalSize config)))
                                   (Z.to_nat (chunkSize config)))) core).
      rewrite working_prefix by assumption.
      rewrite optimized_elems. unfold logAfter.
      destruct (isErrAndNotEOF rerr) eqn:Hrep.
      * destruct rerr; [reflexivity|discriminate].
      * destruct rerr; reflexivity.
    + apply Nat.leb_le in Hfit.
      rewrite (working_append _ _ _ _ Hl Hfit). unfold logAfter.
      destruct (isErrAndNotEOF rerr) eqn:Hrep.
      * destruct rerr; [reflexivity|discriminate].
      * destruct rerr; reflexivity.
Qed.

Lemma usable_dec (config : chunkReaderConfig) :
  {usable config} + {~ usable config}.
Proof.
  unfold usable.
  destruct (Z_le_dec 0 (chunkSize config));
    destruct (Z_le_dec (chunkSize config) (totalSize config));
    (left; lia) || (right; lia).
Qed.

(** What is known of a turn that reaches the [select]. *)
Lemma iteration_send_inv (config : chunkReaderConfig) b log cr rerr b' log' :
  bwf b -> iteration config b log = IterSend cr rerr b' log' ->
  usable config /\ bwf b' /\ bsize b' = bsize b /\
  log' = logAfter rerr log /\
  err cr = (if isErrAndNotEOF rerr then rerr else None) /\
  exists core b1 pd,
    ReadFull b (Z.to_nat (chunkSize config)) = (core, rerr, b1) /\
    ResultBytes cr = core ++ pd /\
    (core = [] -> pd = [] /\ data cr = nilSlice
                  /\ isErrAndNotEOF rerr = true /\ b' = b1) /\
    (core <> [] ->
       cap (data cr) = sentCap config (length core + length pd) /\
       exists pe, Peek b1 (totalSize config - Z.of_nat (length core))
                  = (pd, pe, b')).
Proof.
  intros Hwf Hit.
  destruct (usable_dec config) as [Hu|Hu];
    [|rewrite (iteration_panics _ b log Hu) in Hit; discriminate].
  split; [assumption|].
  destruct (iteration_spec config b log Hwf Hu)
    as (core & rerr0 & b1 & HR & Hcase).
  destruct (ReadFull_spec Hwf HR) as (Hs1 & Hw1 & _ & _).
  destruct Hcase as [(-> & Heq)|(Hne & pd & pe & b2 & HP & Heq)];
    rewrite Heq in Hit.
  - destruct (isErrAndNotEOF rerr0) eqn:Hrep; [|discriminate].
    inversion Hit; subst. simpl. rewrite Hrep.
    repeat split; auto.
    exists [], b', []. repeat split; auto; congruence.
  - inversion Hit; subst. simpl.
    destruct (Peek_spec Hw1 HP) as (Hs2 & Hw2 & _).
    repeat split; auto; try congruence.
    exists core, b1, pd. repeat split; auto; try congruence.
    eauto.
Qed.

Lemma iteration_return_inv (config : chunkReaderConfig) b log b' log' :
  bwf b -> iteration config b log = IterReturn b' log' ->
  usable config /\ log' = log /\
  exists rerr,
    ReadFull b (Z.to_nat (chunkSize config)) = ([], rerr, b') /\
    isErrAndNotEOF rerr = false.
Proof.
  intros Hwf Hit.
  destruct (usable_dec config) as [Hu|Hu];
    [|rewrite (iteration_panics _ b log Hu) in Hit; discriminate].
  split; [assumption|].
  destruct (iteration_spec config b log Hwf Hu)
    as (core & rerr0 & b1 & HR & Hcase).
  destruct Hcase as [(-> & Heq)|(Hne & pd & pe & b2 & HP & Heq)];
    rewrite Heq in Hit; [|discriminate].
  destruct (isErrAndNotEOF rerr0) eqn:Hrep; [discriminate|].
  inversion Hit; subst. split; [reflexivity|]. eauto.
Qed.

(** ** Runs, for any script and any environment *)

Lemma selectSend_shorter (env : list selectEnv) r env' :
  selectSend env = (r, env') -> r <> SelBlocked ->
  length env' < length env.
Proof.
  revert r env'. induction env as [|e env IH]; simpl; intros r env' H Hr.
  - inversion H; subst. congruence.
  - destruct (ctxDone e), (sendReady e).
    + destruct (pickSend e); inversion H; subst; simpl; lia.
    + inversion H; subst; simpl; lia.
    + inversion H; subst; simpl; lia.
    + apply IH in H; auto.
Qed.

(** A property of every result a turn can hand to the [select] holds of
    every delivered result. *)
Lemma loop_delivered_Forall (Q : ChunkResult -> Prop)
  (config : chunkReaderConfig) :
  (forall b log cr rerr b' log',
      bwf b -> iteration config b log = IterSend cr rerr b' log' -> Q cr) ->
  forall fuel env b log,
    bwf b -> Forall Q (delivered (loop fuel config env b log)).
Proof.
  intros HQ. induction fuel as [|fuel IH]; intros env b log Hwf; simpl.
  - constructor.
  - destruct (iteration config b log) as [|b' log'|cr rerr b' log'] eqn:Hit;
      simpl; try constructor.
    destruct (selectSend env) as [[| |] env'] eqn:Hsel; simpl;
      try constructor.
    destruct (iteration_send_inv _ _ _ _ _ _ _ Hwf Hit) as (_ & Hw' & _).
    destruct (isSome rerr); simpl.
    + constructor; [eauto|constructor].
    + constructor; [eauto|]. apply IH. assumption.
Qed.

(** The run of [readInChunks] is never cut short by the bound on the
    number of turns. *)
Lemma loop_total (config : chunkReaderConfig) :
  forall fuel env b log,
    length env < fuel ->
    final (loop fuel config env b log) <> OutOfFuel.
Proof.
  induction fuel as [|fuel IH]; intros env b log Hf; [lia|]. simpl.
  destruct (iteration config b log) as [|b' log'|cr rerr b' log'];
    simpl; try discriminate.
  destruct (selectSend env) as [[| |] env'] eqn:Hsel; simpl;
    try discriminate.
  destruct (isSome rerr); simpl; [discriminate|].
  apply IH.
  assert (length env' < length env)
    by (eapply selectSend_shorter; [exact Hsel|discriminate]).
  lia.
Qed.

(** A run logs at most once: a reportable error, after which the loop
    ends. *)
Lemma loop_logged (config : chunkReaderConfig) :
  forall fuel env b log,
    bwf b ->
    logged (loop fuel config env b log) = log \/
    exists e, logged (loop fuel config env b log)
              = log ++ [(e, readErrorMessage)]
              /\ isErrAndNotEOF (Some e) = true.
Proof.
  induction fuel as [|fuel IH]; intros env b log Hwf; simpl; [auto|].
  destruct (iteration config b log) as [|b' log'|cr rerr b' log'] eqn:Hit;
    simpl; auto.
  - destruct (iteration_return_inv _ _ _ _ _ Hwf Hit) as (_ & -> & _). auto.
  - destruct (iteration_send_inv _ _ _ _ _ _ _ Hwf Hit)
      as (_ & Hw' & _ & Hlog & _).
    assert (Hlog' : log' = log \/
              exists e, log' = log ++ [(e, readErrorMessage)]
                        /\ isErrAndNotEOF (Some e) = true).
    { rewrite Hlog. unfold logAfter.
      destruct rerr as [e|]; [|auto].
      destruct (isErrAndNotEOF (Some e)) eqn:Hrep; eauto. }
    destruct (selectSend env) as [[| |] env'] eqn:Hsel; simpl; auto.
    destruct rerr as [e|]; simpl; auto.
    unfold logAfter in Hlog. subst log'. apply IH. assumption.
Qed.

Lemma readInChunks_total env reader config :
  final (readInChunks env reader config) <> OutOfFuel.
Proof. unfold readInChunks. apply loop_total. lia. Qed.

Lemma NewReaderSize_bwf reader size : bwf (NewReaderSize reader size).
Proof. unfold bwf, NewReaderSize; simpl. lia. Qed.

(** ** Sources that are read without failure *)

Lemma Read_segment (c : byte) (seg : list byte) (r : Reader) (k : nat) :
  Read (Bytes (c :: seg) :: r) k
  = (firstn k (c :: seg), None,
     if length (c :: seg) <=? k then r
     else Bytes (skipn k (c :: seg)) :: r).
Proof. reflexivity. Qed.

Lemma Read_clean {r : Reader} {k : nat} {bs e r'} :
  noFailure r = true -> 0 < k -> Read r k = (bs, e, r') ->
  noFailure r' = true /\ content r = bs ++ content r' /\
  ((e = Some EOF /\ content r' = []) \/ (e = None /\ bs <> [])).
Proof.
  intros Hc Hk. revert bs e r' Hc.
  induction r as [|ev r IH]; intros bs e r' Hc H.
  - simpl in H. inversion H; subst. simpl. tauto.
  - destruct ev as [seg|seg x].
    + destruct seg as [|c seg]; [simpl in *; eauto|].
      rewrite Read_segment in H.
      change (noFailure (Bytes (c :: seg) :: r)) with (noFailure r) in Hc.
      change (content (Bytes (c :: seg) :: r))
        with ((c :: seg) ++ content r).
      assert (Hne : firstn k (c :: seg) <> [])
        by (destruct k; [lia|discriminate]).
      remember (c :: seg) as s eqn:Hs. clear Hs.
      destruct (length s <=? k) eqn:Hl;
        injection H as <- <- <-.
      * apply Nat.leb_le in Hl. rewrite firstn_all2 by assumption.
        rewrite firstn_all2 in Hne by assumption.
        split; [assumption|]. split; [reflexivity|]. right. now split.
      * change (content (Bytes (skipn k s) :: r))
          with (skipn k s ++ content r).
        rewrite app_assoc, firstn_skipn.
        split; [assumption|]. split; [reflexivity|]. right. now split.
    + simpl in Hc. apply andb_true_iff in Hc as [Hx Hr].
      apply error_eqb_eq in Hx. subst x.
      destruct r as [|? ?]; [|discriminate]. clear IH Hr.
      cbn [Read] in H.
      change (content [BytesErr seg EOF]) with (seg ++ []).
      destruct (length seg <=? k) eqn:Hl;
        injection H as <- <- <-.
      * split; [reflexivity|]. split; [reflexivity|]. left. now split.
      * apply Nat.leb_gt in Hl.
        change (content [BytesErr (skipn k seg) EOF])
          with (skipn k seg ++ []).
        rewrite app_assoc, firstn_skipn.
        split; [cbn [noFailure]; now rewrite error_eqb_refl|].
        split; [reflexivity|]. right. split; [reflexivity|].
        destruct seg; [simpl in Hl; lia|]. destruct k; [lia|]. discriminate.
Qed.

Lemma fill_clean (b : bufioReader) :
  bclean b -> length (buf b) < bsize b -> berr b = None ->
  bclean (fill b) /\ bcontent (fill b) = bcontent b.
Proof.
  intros (Hc & Hwf & Herr) Hroom Hnone.
  destruct (fill_spec b Hroom)
    as (Hs & Hw & bs & e & r' & HR & Hb & Hr & Hcase).
  assert (Hk : 0 < bsize b - length (buf b)) by lia.
  destruct (Read_clean Hc Hk HR) as (Hc' & Hcont & Hcl).
  unfold bclean, bcontent. rewrite Hb, Hr, Hcont, <- app_assoc.
  repeat split; auto.
  destruct Hcl as [(-> & Hnil)|(-> & Hne)].
  - right. destruct Hcase as [(? & ? & _)|(_ & He)]; [congruence|].
    split; assumption.
  - left. destruct Hcase as [(_ & _ & He)|(? & _)]; congruence.
Qed.

Lemma peek_fill_clean (fuel n : nat) (b : bufioReader) :
  bclean b ->
  bclean (peek_fill fuel n b) /\ bcontent (peek_fill fuel n b) = bcontent b.
Proof.
  revert b. induction fuel as [|fuel IH]; intros b Hcl; simpl; auto.
  destruct (length (buf b) <? n) eqn:H1; simpl; auto.
  destruct (length (buf b) <? bsize b) eqn:H2; simpl; auto.
  destruct (berr b) as [e|] eqn:H3; simpl; auto.
  apply Nat.ltb_lt in H2.
  destruct (fill_clean b Hcl H2 H3) as (Hcl' & Hcont).
  destruct (IH _ Hcl') as (? & ?). split; congruence.
Qed.

Lemma Peek_clean {b : bufioReader} {n : Z} {pd e b'} :
  bclean b -> (0 <= n)%Z -> Peek b n = (pd, e, b') ->
  bclean b' /\ bcontent b' = bcontent b /\ bsize b' = bsize b /\
  pd = firstn (Nat.min (Z.to_nat n) (bsize b)) (bcontent b).
Proof.
  intros Hcl Hn. unfold Peek.
  destruct (n <? 0)%Z eqn:Hneg; [apply Z.ltb_lt in Hneg; lia|].
  pose proof Hcl as (_ & Hwf & _).
  destruct (peek_fill_exit (S (bsize b)) (Z.to_nat n) b Hwf ltac:(lia))
    as (Hs & Hw & Hex).
  destruct (peek_fill_clean (S (bsize b)) (Z.to_nat n) b Hcl)
    as (Hcl1 & Hcont).
  set (b1 := peek_fill (S (bsize b)) (Z.to_nat n) b) in *.
  set (k := Z.to_nat n) in *.
  assert (Hfull : berr b1 <> None -> bcontent b1 = buf b1).
  { destruct Hcl1 as (_ & _ & [?|[_ Hnil]]); [congruence|].
    intros _. unfold bcontent. rewrite Hnil. apply app_nil_r. }
  unfold bwf in Hw. rewrite <- Hcont, <- Hs.
  destruct (bsize b1 <? k) eqn:H1.
  - apply Nat.ltb_lt in H1. intros H; injection H as <- _ <-.
    split; [exact Hcl1|]. split; [reflexivity|]. split; [reflexivity|].
    rewrite Nat.min_r by lia.
    destruct Hex as [?|[?|Hne]]; [lia| |].
    + unfold bcontent. rewrite firstn_app.
      replace (bsize b1 - length (buf b1)) with 0 by lia.
      rewrite firstn_all2 by lia. simpl. now rewrite app_nil_r.
    + rewrite (Hfull Hne). now rewrite firstn_all2 by lia.
  - apply Nat.ltb_ge in H1. rewrite Nat.min_l by lia.
    destruct (length (buf b1) <? k) eqn:H2.
    + apply Nat.ltb_lt in H2. simpl. intros H; injection H as <- _ <-.
      destruct Hex as [?|[?|Hne]]; try lia.
      specialize (Hfull Hne).
      destruct Hcl1 as (Hc & _ & Herr).
      unfold bclean, bcontent, bwf in *; simpl.
      split; [auto|]. split; [reflexivity|]. split; [reflexivity|].
      rewrite Hfull. now rewrite firstn_all2 by lia.
    + apply Nat.ltb_ge in H2. intros H; injection H as <- _ <-.
      split; [exact Hcl1|]. split; [reflexivity|]. split; [reflexivity|].
      unfold bcontent. rewrite firstn_app.
      replace (k - length (buf b1)) with 0 by lia.
      simpl. now rewrite app_nil_r.
Qed.

Lemma bufioRead_clean {b : bufioReader} {k : nat} {bs e b'} :
  bclean b -> 0 < k -> 0 < bsize b -> bufioRead b k = (bs, e, b') ->
  bclean b' /\ bcontent b = bs ++ bcontent b' /\
  ((e = Some EOF /\ bcontent b' = []) \/ (e = None /\ bs <> [])).
Proof.
  intros (Hc & Hwf & Herr) Hk Hsz. unfold bufioRead, bcontent, bclean.
  destruct (k =? 0) eqn:Hk0; [apply Nat.eqb_eq in Hk0; lia|].
  destruct (length (buf b) =? 0) eqn:Hb0.
  - apply Nat.eqb_eq in Hb0. apply length_zero_iff_nil in Hb0.
    rewrite Hb0. simpl app.
    destruct (berr b) as [x|] eqn:He.
    + simpl. rewrite He. intros H; injection H as <- <- <-. simpl.
      destruct Herr as [?|[Hx Hnil]]; [discriminate|].
      unfold bwf; simpl. rewrite Hb0, Hnil. simpl.
      split; [auto with arith|]. split; [reflexivity|]. left. auto.
    + destruct (bsize b <=? k) eqn:Hlarge.
      * destruct (Read (rd b) k) as [[bs0 e0] r0] eqn:HR.
        destruct (Read_clean Hc Hk HR) as (Hc' & Hcont & Hcl).
        intros H; injection H as <- <- <-. simpl.
        unfold bwf; simpl.
        split; [auto with arith|]. split; [assumption|].
        destruct Hcl as [(-> & Hnil)|(-> & Hne)]; auto.
      * destruct (Read (rd b) (bsize b)) as [[bs0 e0] r0] eqn:HR.
        destruct (Read_clean Hc Hsz HR) as (Hc' & Hcont & Hcl).
        pose proof (Read_length HR) as Hlen.
        destruct (length bs0 =? 0) eqn:Hz.
        -- apply Nat.eqb_eq in Hz. apply length_zero_iff_nil in Hz. subst bs0.
           intros H; injection H as <- <- <-. simpl.
           unfold bwf; simpl.
           split; [auto with arith|]. split; [assumption|].
           destruct Hcl as [(-> & Hnil)|(_ & Hne)]; [auto|congruence].
        -- apply Nat.eqb_neq in Hz.
           intros H; injection H as <- <- <-. simpl.
           unfold bwf; simpl. rewrite length_skipn.
           split.
           { split; [assumption|]. split; [lia|].
             destruct Hcl as [(-> & Hnil)|(-> & _)]; auto. }
           split; [now rewrite app_assoc, firstn_skipn|].
           right. split; [reflexivity|].
           destruct bs0; [simpl in Hz; lia|]. destruct k; [lia|].
           discriminate.
  - apply Nat.eqb_neq in Hb0.
    intros H; injection H as <- <- <-. simpl.
    unfold bwf in *; simpl. rewrite length_skipn.
    split; [split; [assumption|split; [lia|assumption]]|].
    split; [now rewrite app_assoc, firstn_skipn|].
    right. split; [reflexivity|].
    destruct (buf b); [simpl in Hb0; lia|]. destruct k; [lia|]. discriminate.
Qed.

Lemma bufioRead_bsize {b : bufioReader} {k : nat} {bs e b'} :
  bufioRead b k = (bs, e, b') -> bsize b' = bsize b.
Proof.
  unfold bufioRead.
  destruct (k =? 0).
  { destruct (0 <? length (buf b)); simpl; intros H; now injection H as <- <- <-. }
  destruct (length (buf b) =? 0).
  - destruct (berr b).
    + simpl. intros H; now injection H as <- <- <-.
    + destruct (bsize b <=? k).
      * destruct (Read (rd b) k) as [[? ?] ?].
        intros H; now injection H as <- <- <-.
      * destruct (Read (rd b) (bsize b)) as [[bs0 ?] ?].
        destruct (length bs0 =? 0); intros H; now injection H as <- <- <-.
  - intros H; now injection H as <- <- <-.
Qed.

(** The loop of [io.ReadFull] on a source without failure hands out the
    next bytes of the content, as many as are asked for or as are left. *)
Lemma readAtLeast_loop_clean (fuel : nat) (b : bufioReader) (size : nat)
  (acc : list byte) bs e b' :
  bclean b -> 0 < bsize b -> length acc <= size ->
  size - length acc < fuel ->
  readAtLeast_loop fuel b size size acc = (bs, e, b') ->
  bclean b' /\
  bs = acc ++ firstn (size - length acc) (bcontent b) /\
  bcontent b' = skipn (size - length acc) (bcontent b) /\
  ((e = None /\ length bs = size) \/
   (e = Some EOF /\ bcontent b' = [])).
Proof.
  revert b acc. induction fuel as [|fuel IH];
    intros b acc Hcl Hsz Hacc Hf; [lia|].
  simpl. destruct (length acc <? size) eqn:Hlt.
  - apply Nat.ltb_lt in Hlt.
    destruct (bufioRead b (size - length acc)) as [[bs0 e0] b0] eqn:HR.
    assert (Hk : 0 < size - length acc) by lia.
    destruct (bufioRead_clean Hcl Hk Hsz HR) as (Hcl0 & Hcont & Hcase).
    pose proof (bufioRead_bsize HR) as Hs0.
    pose proof Hcl as (_ & Hwf & _).
    destruct (bufioRead_spec Hwf Hk HR) as (_ & _ & Hl0 & _).
    destruct Hcase as [(-> & Hnil)|(-> & Hne)].
    + intros H; injection H as <- <- <-.
      rewrite Hnil, app_nil_r in Hcont. rewrite Hnil, Hcont.
      rewrite firstn_all2, skipn_all2 by assumption.
      split; [assumption|]. split; [reflexivity|]. split; [reflexivity|].
      right. split; reflexivity.
    + assert (0 < length bs0) by (destruct bs0; [congruence|simpl; lia]).
      intros H'.
      apply IH in H'; auto; rewrite ?length_app; try lia.
      destruct H' as (Hcl' & Hbs & Hc' & Hex).
      rewrite length_app in Hbs, Hc'.
      split; [assumption|].
      rewrite Hcont.
      split.
      * rewrite Hbs, <- app_assoc. f_equal.
        rewrite firstn_app.
        rewrite (@firstn_all2 _ (size - length acc) bs0)
          by assumption.
        f_equal. f_equal. lia.
      * split; [|assumption].
        rewrite Hc', skipn_app.
        rewrite (@skipn_all2 _ (size - length acc) bs0)
          by assumption.
        simpl. f_equal. lia.
  - apply Nat.ltb_ge in Hlt.
    intros H; injection H as <- <- <-.
    replace (size - length acc) with 0 by lia. simpl.
    rewrite app_nil_r.
    split; [assumption|]. split; [reflexivity|]. split; [reflexivity|].
    left. split; [reflexivity|lia].
Qed.

Lemma ReadFull_bsize {b : bufioReader} {len : nat} {bs e b'} :
  bwf b -> ReadFull b len = (bs, e, b') -> bsize b' = bsize b.
Proof. intros Hwf H. now destruct (ReadFull_spec Hwf H). Qed.

(** [io.ReadFull] on a source without failure: the next [size] bytes,
    with [io.EOF] when nothing is left and [io.ErrUnexpectedEOF] when
    less than [size] bytes are left. *)
Lemma ReadFull_clean {b : bufioReader} {size : nat} {bs e b'} :
  bclean b -> 0 < bsize b -> ReadFull b size = (bs, e, b') ->
  bclean b' /\
  bs = firstn size (bcontent b) /\
  bcontent b' = skipn size (bcontent b) /\
  e = (if size <=? length (bcontent b) then None
       else if length (bcontent b) =? 0 then Some EOF
            else Some ErrUnexpectedEOF).
Proof.
  intros Hcl Hsz. unfold ReadFull, ReadAtLeast.
  rewrite Nat.ltb_irrefl.
  destruct (readAtLeast_loop (S size) b size size []) as [[bs0 e0] b0] eqn:HL.
  apply readAtLeast_loop_clean in HL; simpl; auto; try lia.
  rewrite Nat.sub_0_r in HL. simpl in HL.
  destruct HL as (Hcl0 & Hbs & Hcont & Hex).
  intros H; injection H as <- <- <-.
  split; [assumption|]. split; [assumption|]. split; [assumption|].
  assert (Hlen : length bs0 = Nat.min size (length (bcontent b)))
    by (rewrite Hbs; apply length_firstn).
  destruct Hex as [(-> & Hfull)|(-> & Hrest)].
  - rewrite Hfull, Nat.leb_refl.
    replace (size <=? length (bcontent b)) with true
      by (symmetry; apply Nat.leb_le; lia).
    reflexivity.
  - assert (Hle : length (bcontent b) <= size).
    { rewrite Hrest in Hcont. symmetry in Hcont.
      apply (f_equal (@length byte)) in Hcont.
      rewrite length_skipn in Hcont. simpl in Hcont. lia. }
    rewrite Nat.min_r in Hlen by assumption. rewrite Hlen.
    destruct (size <=? length (bcontent b)); [reflexivity|].
    destruct (length (bcontent b)) as [|m]; reflexivity.
Qed.

(** ** The chunks of a byte sequence *)

Lemma ceilDiv_spec (n C : nat) :
  0 < C -> 0 < n -> (ceilDiv n C - 1) * C < n <= ceilDiv n C * C.
Proof.
  intros HC Hn. unfold ceilDiv.
  pose proof (Nat.div_mod_eq (n + C - 1) C) as Hdm.
  pose proof (Nat.mod_upper_bound (n + C - 1) C ltac:(lia)) as Hm.
  set (q := (n + C - 1) / C) in *. set (m := (n + C - 1) mod C) in *.
  destruct q as [|q]; nia.
Qed.

Lemma ceilDiv_0 (C : nat) : ceilDiv 0 C = 0.
Proof.
  unfold ceilDiv. destruct C as [|C]; [reflexivity|].
  apply Nat.div_small. lia.
Qed.

Lemma ceilDiv_step (n C : nat) :
  0 < C -> 0 < n -> ceilDiv n C = S (ceilDiv (n - C) C).
Proof.
  intros HC Hn. unfold ceilDiv.
  destruct (Nat.le_gt_cases C n) as [Hle|Hgt].
  - replace (n + C - 1) with ((n - C + C - 1) + 1 * C) by lia.
    rewrite Nat.div_add by lia. lia.
  - replace (n - C) with 0 by lia.
    replace (n + C - 1) with ((n - 1) + 1 * C) by lia.
    rewrite Nat.div_add by lia.
    rewrite (Nat.div_small (n - 1) C) by lia.
    rewrite (Nat.div_small (0 + C - 1) C) by lia. reflexivity.
Qed.

Lemma firstn_add_split (C W : nat) (s : list byte) :
  firstn C s ++ firstn W (skipn C s) = firstn (C + W) s.
Proof.
  revert s. induction C as [|C IH]; intros s; simpl; [reflexivity|].
  destruct s as [|c s]; simpl.
  - now rewrite firstn_nil.
  - now rewrite IH.
Qed.

Lemma reassemble_cons (C : nat) (c r : list byte) rest :
  reassemble C (c :: r :: rest) = firstn C c ++ reassemble C (r :: rest).
Proof. unfold reassemble. simpl. now rewrite app_assoc. Qed.

Section Chunks.

Variables C W : nat.
Hypothesis C_pos : 0 < C.

Lemma chunksFrom_nil (fuel : nat) : chunksFrom fuel C W [] = [].
Proof. destruct fuel; reflexivity. Qed.

Lemma chunksFrom_cons (fuel : nat) (s : list byte) :
  s <> [] ->
  chunksFrom (S fuel) C W s
  = firstn (C + W) s :: chunksFrom fuel C W (skipn C s).
Proof.
  intros Hne. simpl. destruct s as [|c s]; [congruence|].
  now rewrite firstn_add_split.
Qed.

Lemma skipn_shorter (s : list byte) :
  s <> [] -> length (skipn C s) < length s.
Proof.
  intros Hne. rewrite length_skipn.
  destruct s; [congruence|cbn [length]; lia].
Qed.

(** More fuel than the content has bytes changes nothing. *)
Lemma chunksFrom_fuel (f1 f2 : nat) (s : list byte) :
  length s <= f1 -> length s <= f2 ->
  chunksFrom f1 C W s = chunksFrom f2 C W s.
Proof.
  revert f2 s. induction f1 as [|f1 IH]; intros f2 s H1 H2.
  - destruct s; [now rewrite !chunksFrom_nil|simpl in H1; lia].
  - destruct s as [|c s]; [now rewrite !chunksFrom_nil|].
    destruct f2 as [|f2]; [simpl in H2; lia|].
    rewrite !chunksFrom_cons by discriminate. f_equal.
    pose proof (skipn_shorter (c :: s) ltac:(discriminate)).
    apply IH; lia.
Qed.

Lemma expectedChunks_nil : expectedChunks C W [] = [].
Proof. reflexivity. Qed.

Lemma expectedChunks_cons (s : list byte) :
  s <> [] ->
  expectedChunks C W s
  = firstn (C + W) s :: expectedChunks C W (skipn C s).
Proof.
  intros Hne. unfold expectedChunks.
  destruct (length s) as [|n] eqn:Hl;
    [apply length_zero_iff_nil in Hl; congruence|].
  rewrite chunksFrom_cons by assumption. f_equal.
  pose proof (skipn_shorter s Hne).
  apply chunksFrom_fuel; lia.
Qed.

(** An induction principle that follows the chunking. *)
Lemma chunk_ind (Q : list byte -> Prop) :
  Q [] ->
  (forall s, s <> [] -> Q (skipn C s) -> Q s) ->
  forall s, Q s.
Proof.
  intros Hnil Hstep s.
  remember (length s) as n eqn:Hn. revert s Hn.
  induction n as [n IH] using lt_wf_ind. intros s Hn.
  destruct s as [|c s]; [assumption|].
  apply Hstep; [discriminate|].
  eapply IH; [|reflexivity]. subst n.
  apply skipn_shorter. discriminate.
Qed.

Lemma expectedChunks_empty_iff (s : list byte) :
  expectedChunks C W s = [] <-> s = [].
Proof.
  split; [|intros ->; reflexivity].
  destruct s as [|c s]; [reflexivity|].
  rewrite expectedChunks_cons by discriminate. discriminate.
Qed.

(** The number of chunks is the ceiling of the length over [C]. *)
Lemma expectedChunks_length (s : list byte) :
  length (expectedChunks C W s) = ceilDiv (length s) C.
Proof.
  induction s as [|s Hne IH] using chunk_ind.
  - now rewrite ceilDiv_0.
  - rewrite expectedChunks_cons by assumption. simpl.
    rewrite IH, length_skipn. symmetry. apply ceilDiv_step; [assumption|].
    destruct s; [congruence|cbn [length]; lia].
Qed.

(** Chunk [i] is the window of [C + W] bytes at offset [i * C]. *)
Lemma expectedChunks_nth (s : list byte) (i : nat) (c : list byte) :
  nth_error (expectedChunks C W s) i = Some c ->
  c = firstn (C + W) (skipn (i * C) s) /\ i * C < length s.
Proof.
  revert i. induction s as [|s Hne IH] using chunk_ind; intros i H.
  - rewrite expectedChunks_nil in H. destruct i; discriminate.
  - rewrite expectedChunks_cons in H by assumption.
    destruct i as [|i]; simpl in H.
    + injection H as <-. simpl. split; [reflexivity|].
      destruct s; [congruence|cbn [length]; lia].
    + apply IH in H. destruct H as [-> Hlt].
      rewrite skipn_skipn, length_skipn in *. simpl.
      replace (C + i * C) with (i * C + C) by lia.
      split; [reflexivity|lia].
Qed.

(** The round trip on the expected chunks. *)
Lemma reassemble_expected (s : list byte) :
  reassemble C (expectedChunks C W s) = s.
Proof.
  induction s as [|s Hne IH] using chunk_ind; [reflexivity|].
  rewrite expectedChunks_cons by assumption.
  destruct (expectedChunks C W (skipn C s)) as [|r rest] eqn:Hrest.
  - apply expectedChunks_empty_iff in Hrest.
    unfold reassemble. simpl.
    rewrite <- firstn_add_split, Hrest, firstn_nil, app_nil_r.
    rewrite <- (firstn_skipn C s) at 2. now rewrite Hrest, app_nil_r.
  - rewrite reassemble_cons, IH.
    rewrite firstn_firstn, Nat.min_l by lia.
    apply firstn_skipn.
Qed.

End Chunks.

(** ** Runs on a source without failure *)

(** Without cancellation the [select] waits for room in the channel and
    sends. *)
Lemma selectSend_ready (env : list selectEnv) :
  neverDone env = true -> 0 < readyCount env ->
  exists env',
    selectSend env = (SelSent, env') /\ neverDone env' = true /\
    readyCount env = S (readyCount env').
Proof.
  unfold neverDone, readyCount.
  induction env as [|e env IH]; simpl; intros Hnd Hrc; [lia|].
  apply andb_true_iff in Hnd as [He Hnd].
  destruct (ctxDone e); [discriminate|].
  destruct (sendReady e); simpl in *.
  - exists env. auto.
  - apply IH; assumption.
Qed.

Lemma readyCount_length (env : list selectEnv) :
  readyCount env <= length env.
Proof. unfold readyCount. apply filter_length_le. Qed.

Section CleanRun.

Variable config : chunkReaderConfig.
Hypothesis config_usable : usable config.
Hypothesis chunk_pos : (0 < chunkSize config)%Z.

Variables C P : nat.
Hypothesis C_def : C = Z.to_nat (chunkSize config).
Hypothesis P_def : P = Z.to_nat (totalSize config - chunkSize config).

Lemma iteration_clean (b : bufioReader) (log : list logEntry) :
  bclean b -> 0 < bsize b ->
  (bcontent b = [] ->
     exists b', iteration config b log = IterReturn b' log) /\
  (bcontent b <> [] ->
     exists cr rerr b',
       iteration config b log = IterSend cr rerr b' log /\
       rerr = (if C <=? length (bcontent b) then None
               else Some ErrUnexpectedEOF) /\
       ResultBytes cr = firstn (C + Nat.min P (bsize b)) (bcontent b) /\
       err cr = None /\
       bclean b' /\ bsize b' = bsize b /\
       bcontent b' = skipn C (bcontent b)).
Proof.
  intros Hcl Hsz. pose proof Hcl as (_ & Hwf & _).
  assert (HCpos : 0 < C) by (rewrite C_def; lia).
  destruct (iteration_spec config b log Hwf config_usable)
    as (core & rerr & b1 & HR & Hcase).
  rewrite <- C_def in HR.
  destruct (ReadFull_clean Hcl Hsz HR) as (Hcl1 & Hcore & Hcont1 & Hrerr).
  pose proof (ReadFull_bsize Hwf HR) as Hs1.
  split.
  - intros Hnil. rewrite Hnil in *. rewrite firstn_nil in Hcore.
    destruct Hcase as [(_ & Heq)|(Hne & _)]; [|congruence].
    exists b1. rewrite Heq, Hrerr. simpl.
    replace (C <=? 0) with false by (symmetry; apply Nat.leb_gt; lia).
    reflexivity.
  - intros Hne.
    assert (Hcne : core <> []).
    { rewrite Hcore. destruct (bcontent b); [congruence|].
      destruct C; [lia|discriminate]. }
    destruct Hcase as [(? & _)|(_ & pd & pe & b2 & HP & Heq)];
      [congruence|].
    assert (Hlen : length core = Nat.min C (length (bcontent b)))
      by (rewrite Hcore; apply length_firstn).
    destruct config_usable as [Hc0 HcT].
    assert (Hn : (0 <= totalSize config - Z.of_nat (length core))%Z)
      by (rewrite C_def in Hlen; lia).
    destruct (Peek_clean Hcl1 Hn HP) as (Hcl2 & Hcont2 & Hs2 & Hpd).
    assert (Hnot : isErrAndNotEOF rerr = false).
    { rewrite Hrerr. destruct (C <=? length (bcontent b)); [reflexivity|].
      destruct (length (bcontent b) =? 0); reflexivity. }
    assert (Hrerr' : rerr = if C <=? length (bcontent b) then None
                            else Some ErrUnexpectedEOF).
    { rewrite Hrerr. destruct (C <=? length (bcontent b)); [reflexivity|].
      destruct (length (bcontent b) =? 0) eqn:Hz; [|reflexivity].
      apply Nat.eqb_eq, length_zero_iff_nil in Hz. congruence. }
    eexists. exists rerr, b2. rewrite Heq, Hnot.
    assert (Hlog : logAfter rerr log = log).
    { unfold logAfter. rewrite Hnot. now destruct rerr. }
    rewrite Hlog.
    split; [reflexivity|]. split; [exact Hrerr'|].
    split; [|split; [reflexivity|]].
    + unfold ResultBytes. simpl.
      rewrite <- firstn_add_split.
      destruct (Nat.le_gt_cases C (length (bcontent b))) as [Hle|Hgt].
      * rewrite Nat.min_l in Hlen by assumption.
        replace (Z.to_nat (totalSize config - Z.of_nat (length core)))
          with P in Hpd by (rewrite P_def, Hlen, C_def; lia).
        rewrite Hpd, Hcont1, Hs1, Hcore. reflexivity.
      * rewrite Hpd, Hcont1, Hcore.
        rewrite (@skipn_all2 _ C (bcontent b)) by lia.
        now rewrite !firstn_nil.
    + split; [assumption|]. split; congruence.
Qed.

(** Whatever the environment does, the delivered buffers are the first
    of the expected chunks, without errors, and nothing is logged. *)
Lemma loop_clean_prefix :
  forall fuel env b log,
    bclean b -> 0 < bsize b ->
    let r := loop fuel config env b log in
    (exists k, map ResultBytes (delivered r)
               = firstn k (expectedChunks C (Nat.min P (bsize b))
                                          (bcontent b))) /\
    Forall (fun cr => err cr = None) (delivered r) /\
    logged r = log.
Proof.
  assert (HCpos : 0 < C) by (rewrite C_def; lia).
  induction fuel as [|fuel IH]; intros env b log Hcl Hsz; simpl.
  { split; [exists 0; reflexivity|]. split; [constructor|reflexivity]. }
  destruct (iteration_clean b log Hcl Hsz) as [Hnil Hcons].
  destruct (bcontent b) as [|c0 s0] eqn:Hs.
  - destruct (Hnil eq_refl) as (b' & ->). simpl.
    split; [exists 0; reflexivity|]. split; [constructor|reflexivity].
  - destruct (Hcons ltac:(discriminate))
      as (cr & rerr & b' & -> & Hrerr & Hbytes & Herr & Hcl' & Hs' & Hcont').
    rewrite expectedChunks_cons by (assumption || discriminate).
    destruct (selectSend env) as [[| |] env'] eqn:Hsel; simpl;
      try (split; [exists 0; reflexivity|];
           split; [constructor|reflexivity]).
    destruct (C <=? length (c0 :: s0)) eqn:Hfull; subst rerr; simpl.
    + destruct (IH env' b' log Hcl' ltac:(lia)) as ((k & Hk) & Hall & Hlog).
      split; [|split; [constructor; assumption|assumption]].
      exists (S k). simpl. rewrite Hbytes. f_equal.
      rewrite Hk, Hs', Hcont'. reflexivity.
    + split; [|split; [repeat constructor; assumption|reflexivity]].
      exists 1. simpl. rewrite Hbytes. reflexivity.
Qed.

(** Without cancellation and with room made for every chunk, all the
    expected chunks are delivered and the channel is closed. *)
Lemma loop_clean_complete :
  forall fuel env b log,
    bclean b -> 0 < bsize b ->
    neverDone env = true ->
    let chunks := expectedChunks C (Nat.min P (bsize b)) (bcontent b) in
    length chunks <= readyCount env -> length chunks < fuel ->
    let r := loop fuel config env b log in
    map ResultBytes (delivered r) = chunks /\ final r = Closed.
Proof.
  assert (HCpos : 0 < C) by (rewrite C_def; lia).
  induction fuel as [|fuel IH]; intros env b log Hcl Hsz Hopen;
    simpl; [lia|].
  destruct (iteration_clean b log Hcl Hsz) as [Hnil Hcons].
  destruct (bcontent b) as [|c0 s0] eqn:Hs.
  - destruct (Hnil eq_refl) as (b' & ->). simpl. auto.
  - destruct (Hcons ltac:(discriminate))
      as (cr & rerr & b' & -> & Hrerr & Hbytes & Herr & Hcl' & Hs' & Hcont').
    rewrite expectedChunks_cons by (assumption || discriminate).
    simpl length. intros Henv Hfuel.
    destruct (selectSend_ready env Hopen ltac:(lia))
      as (env' & -> & Hopen' & Hcount).
    destruct (C <=? length (c0 :: s0)) eqn:Hfull; subst rerr; simpl.
    + specialize (IH env' b' log Hcl' ltac:(lia) Hopen').
      rewrite Hs', Hcont' in IH.
      destruct IH as [Hd Hf]; [lia|lia|].
      rewrite Hbytes, Hd. auto.
    + apply Nat.leb_gt in Hfull.
      rewrite (@skipn_all2 _ C (c0 :: s0)) by lia.
      rewrite expectedChunks_nil, Hbytes. auto.
Qed.

End CleanRun.

(** ** The configuration builder *)

Lemma wrap_inRange (z : Z) : GoInt.inRange z -> GoInt.wrap z = z.
Proof.
  unfold GoInt.inRange, GoInt.wrap, GoInt.MinInt, GoInt.MaxInt.
  intros H. rewrite Z.mod_small; lia.
Qed.

Lemma fold_options_threshold (opts : list ConfigOption) :
  forall c,
    smallChunkThreshold (fold_left (fun c opt => callOption opt c) opts c)
    = smallChunkThreshold c.
Proof.
  induction opts as [|opt opts IH]; intros c; simpl; [reflexivity|].
  rewrite IH. destruct opt; reflexivity.
Qed.

Lemma applyOptions_total (opts : list ConfigOption) :
  totalSize (applyOptions opts)
  = GoInt.add (chunkSize (applyOptions opts)) (peekSize (applyOptions opts)).
Proof. reflexivity. Qed.

Lemma applyOptions_threshold (opts : list ConfigOption) :
  smallChunkThreshold (applyOptions opts) = 6656%Z.
Proof.
  unfold applyOptions. simpl. now rewrite fold_options_threshold.
Qed.

Lemma sizesExpected_total (opts : list ConfigOption) :
  sizesExpected (applyOptions opts) ->
  totalSize (applyOptions opts)
  = (chunkSize (applyOptions opts) + peekSize (applyOptions opts))%Z.
Proof.
  intros (HC & HP & Hmax). rewrite applyOptions_total. unfold GoInt.add.
  apply wrap_inRange. unfold GoInt.inRange, GoInt.MinInt, GoInt.MaxInt in *.
  lia.
Qed.

Lemma run_setup (opts : list ConfigOption) (reader : Reader) :
  sizesExpected (applyOptions opts) -> noFailure reader = true ->
  let config := applyOptions opts in
  let b := NewReaderSize reader (chunkSize config) in
  usable config /\ bclean b /\ 0 < bsize b /\ bcontent b = content reader /\
  Nat.min (Z.to_nat (totalSize config - chunkSize config)) (bsize b)
  = peekWindow config.
Proof.
  intros Hsz Hnf. pose proof (sizesExpected_total opts Hsz) as HT.
  destruct Hsz as (HC & HP & Hmax).
  remember (applyOptions opts) as config eqn:Hconfig. clear Hconfig.
  cbv zeta.
  split; [unfold usable; lia|].
  split; [unfold bclean, bwf, NewReaderSize; cbn [buf bsize berr rd length];
          auto with arith|].
  split; [unfold NewReaderSize, minReadBufferSize; cbn [bsize]; lia|].
  split; [reflexivity|].
  unfold peekWindow, NewReaderSize. cbn [bsize]. rewrite HT.
  f_equal. f_equal. lia.
Qed.

(** On a source without failure the delivered buffers are the first of
    the expected chunks, whatever the environment does. *)
Lemma clean_run_prefix (opts : list ConfigOption) env (reader : Reader) :
  sizesExpected (applyOptions opts) -> noFailure reader = true ->
  let config := applyOptions opts in
  let r := NewChunkReader opts env reader in
  (exists k, map ResultBytes (delivered r)
             = firstn k (expectedChunks (Z.to_nat (chunkSize config))
                                        (peekWindow config)
                                        (content reader))) /\
  Forall (fun cr => err cr = None) (delivered r) /\
  logged r = [].
Proof.
  intros Hsz Hnf.
  destruct (run_setup opts reader Hsz Hnf) as (Hu & Hcl & Hb & Hcont & HW).
  destruct Hsz as (HC & _). intros config r.
  pose proof (loop_clean_prefix config Hu HC _ _ eq_refl eq_refl
                (S (length env)) env
                (NewReaderSize reader (chunkSize config)) [] Hcl Hb) as H.
  cbv zeta in H. fold config in HW, Hcont. rewrite HW, Hcont in H. exact H.
Qed.

(** Without cancellation and with room made for every chunk, all the
    expected chunks are delivered and the channel is closed. *)
Lemma clean_run_complete (opts : list ConfigOption) env (reader : Reader) :
  sizesExpected (applyOptions opts) -> noFailure reader = true ->
  neverDone env = true ->
  let config := applyOptions opts in
  ceilDiv (length (content reader)) (Z.to_nat (chunkSize config))
    <= readyCount env ->
  let r := NewChunkReader opts env reader in
  map ResultBytes (delivered r)
  = expectedChunks (Z.to_nat (chunkSize config)) (peekWindow config)
                   (content reader)
  /\ final r = Closed.
Proof.
  intros Hsz Hnf Hopen config Hlen.
  destruct (run_setup opts reader Hsz Hnf) as (Hu & Hcl & Hb & Hcont & HW).
  destruct Hsz as (HC & _). intros r.
  assert (HCn : 0 < Z.to_nat (chunkSize config)) by (unfold config; lia).
  pose proof (loop_clean_complete config Hu HC _ _ eq_refl eq_refl
                (S (length env)) env
                (NewReaderSize reader (chunkSize config)) [] Hcl Hb Hopen)
    as H.
  cbv zeta in H. fold config in HW, Hcont. rewrite HW, Hcont in H.
  rewrite expectedChunks_length in H by assumption.
  pose proof (readyCount_length env).
  apply H; lia.
Qed.

(** * The claims *)

(** ** C1: the round-trip law *)

(** C1.  For a finite byte source read without failure (in segments of
    any sizes), a configuration with the expected sizes and a run that is
    not cancelled and whose consumer makes room for every chunk, the
    first [chunkSize] bytes of every delivered chunk but the last,
    followed by the whole last chunk, are the bytes of the source. *)
Theorem round_trip_law (opts : list ConfigOption) (env : list selectEnv)
  (reader : Reader) :
  sizesExpected (applyOptions opts) ->
  noFailure reader = true ->
  neverDone env = true ->
  ceilDiv (length (content reader))
          (Z.to_nat (chunkSize (applyOptions opts))) <= readyCount env ->
  reassemble (Z.to_nat (chunkSize (applyOptions opts)))
             (map ResultBytes (delivered (NewChunkReader opts env reader)))
  = content reader.
Proof.
  intros Hsz Hnf Hopen Hlen.
  destruct (clean_run_complete opts env reader Hsz Hnf Hopen Hlen)
    as [Hd _].
  rewrite Hd. apply reassemble_expected.
  destruct Hsz as (HC & _). lia.
Qed.

Lemma round_trip_law_witness :
  reassemble 10
    (map ResultBytes
       (delivered
          (NewChunkReader smallOpts
             [mkEnv false false true; mkEnv false true true;
              mkEnv false true false; mkEnv false true true]
             [Bytes (firstn 7 alphabet); BytesErr (skipn 7 alphabet) EOF])))
  = alphabet.
Proof.
  apply (round_trip_law smallOpts
           [mkEnv false false true; mkEnv false true true;
            mkEnv false true false; mkEnv false true true]
           [Bytes (firstn 7 alphabet); BytesErr (skipn 7 alphabet) EOF]).
  - unfold sizesExpected, GoInt.MaxInt. simpl. lia.
  - reflexivity.
  - reflexivity.
  - vm_compute. lia.
Defined.

(** ** C4: the number of chunks *)

(** C4.  For a source of [N] bytes read without failure, with the
    expected sizes [C] and [P] and [N > C + P], a run that is not
    cancelled delivers exactly the ceiling of [N / C] results and closes
    the channel; the core of result [i] starts at offset [i * C] of the
    source, and it has exactly [C] bytes for every result but the
    last. *)
Theorem chunk_count (opts : list ConfigOption) (env : list selectEnv)
  (reader : Reader) :
  sizesExpected (applyOptions opts) ->
  noFailure reader = true ->
  neverDone env = true ->
  ceilDiv (length (content reader))
          (Z.to_nat (chunkSize (applyOptions opts))) <= readyCount env ->
  (chunkSize (applyOptions opts) + peekSize (applyOptions opts)
   < Z.of_nat (length (content reader)))%Z ->
  let C := Z.to_nat (chunkSize (applyOptions opts)) in
  let r := NewChunkReader opts env reader in
  length (delivered r) = ceilDiv (length (content reader)) C /\
  (forall i cr, nth_error (delivered r) i = Some cr ->
     firstn C (ResultBytes cr) = firstn C (skipn (i * C) (content reader))
     /\ (S i < length (delivered r) ->
         length (firstn C (ResultBytes cr)) = C)) /\
  final r = Closed.
Proof.
  intros Hsz Hnf Hopen Hlen _ C r.
  destruct (clean_run_complete opts env reader Hsz Hnf Hopen Hlen)
    as [Hd Hf].
  fold r C in Hd, Hf.
  assert (HC : 0 < C) by (destruct Hsz as (? & _); unfold C; lia).
  assert (Hcount : length (delivered r)
                   = ceilDiv (length (content reader)) C).
  { rewrite <- (length_map ResultBytes), Hd.
    now apply expectedChunks_length. }
  split; [assumption|]. split; [|assumption].
  intros i cr Hi.
  apply (map_nth_error ResultBytes) in Hi. rewrite Hd in Hi.
  apply expectedChunks_nth in Hi; [|assumption].
  destruct Hi as [-> Hlt].
  rewrite firstn_firstn, Nat.min_l by lia.
  split; [reflexivity|].
  intros Hnext. rewrite length_firstn, length_skipn.
  rewrite Hcount in Hnext.
  pose proof (ceilDiv_spec (length (content reader)) C HC ltac:(lia)).
  nia.
Qed.

Lemma chunk_count_witness :
  length (delivered (NewChunkReader smallOpts (openEnv 3) [Bytes alphabet]))
  = 3.
Proof.
  apply (chunk_count smallOpts (openEnv 3) [Bytes alphabet]).
  - unfold sizesExpected, GoInt.MaxInt. simpl. lia.
  - reflexivity.
  - reflexivity.
  - vm_compute. lia.
  - vm_compute. reflexivity.
Defined.

(** ** C2: the overlap law *)

(** C2, as stated, fails: with chunk size 4 and peek size 10 on a source
    of 20 bytes, the third chunk is bytes 8 to 20 and the fourth, which
    is not the last, is bytes 12 to 20: it is shorter than the peek
    size. *)
Lemma overlap_law_counterexample :
  ~ overlapLaw [WithChunkSize 4; WithPeekSize 10] (openEnv 5)
               [Bytes (firstn 20 alphabet)].
Proof.
  intros H.
  specialize (H 2
    (mkResult (mkSlice (bytesOf "ijklmnopqrst"%string) 12) None)
    (mkResult (mkSlice (bytesOf "mnopqrst"%string) 8) None)
    eq_refl eq_refl).
  vm_compute in H. specialize (H ltac:(lia)). discriminate H.
Qed.

(** C2, amended.  For a source read without failure and the expected
    sizes, whatever the environment does: two consecutive delivered
    chunks overlap by the peek size [P] whenever the first one carries a
    full peek window (it has [C + P] bytes); this is always so when
    [P <= C] and the second chunk is not the last. *)
Theorem overlap_law (opts : list ConfigOption) (env : list selectEnv)
  (reader : Reader) (i : nat) (a b : ChunkResult) :
  sizesExpected (applyOptions opts) ->
  noFailure reader = true ->
  let C := Z.to_nat (chunkSize (applyOptions opts)) in
  let P := Z.to_nat (peekSize (applyOptions opts)) in
  let ds := delivered (NewChunkReader opts env reader) in
  nth_error ds i = Some a -> nth_error ds (S i) = Some b ->
  (length (ResultBytes a) = C + P ->
   lastn P (ResultBytes a) = firstn P (ResultBytes b)) /\
  (P <= C -> S (S i) < length ds ->
   lastn P (ResultBytes a) = firstn P (ResultBytes b)).
Proof.
  intros Hsz Hnf C P ds Ha Hb.
  destruct (clean_run_prefix opts env reader Hsz Hnf) as ((k & Hk) & _).
  fold ds C in Hk.
  assert (HC : 0 < C) by (destruct Hsz as (? & _); unfold C; lia).
  set (W := peekWindow (applyOptions opts)) in *.
  set (s := content reader) in *.
  assert (HW : W <= P) by (unfold W, peekWindow, P; lia).
  assert (Hnth : forall j cr, nth_error ds j = Some cr ->
            ResultBytes cr = firstn (C + W) (skipn (j * C) s)
            /\ j * C < length s).
  { intros j cr Hj. apply (map_nth_error ResultBytes) in Hj.
    rewrite Hk, nth_error_firstn in Hj.
    destruct (j <? k); [|discriminate].
    now apply expectedChunks_nth in Hj. }
  destruct (Hnth _ _ Ha) as [Ea Hia]. destruct (Hnth _ _ Hb) as [Eb Hib].
  assert (Hfull : length (ResultBytes a) = C + P ->
                  lastn P (ResultBytes a) = firstn P (ResultBytes b)).
  { intros Hlen. unfold lastn. rewrite Hlen.
    replace (C + P - P) with C by lia.
    assert (HWP : W = P).
    { rewrite Ea, length_firstn in Hlen. lia. }
    rewrite Ea, Eb, skipn_firstn_comm, skipn_skipn.
    rewrite firstn_firstn. rewrite HWP.
    replace (C + P - C) with P by lia.
    replace (Nat.min P (C + P)) with P by lia.
    reflexivity. }
  split; [exact Hfull|].
  intros HPC Hnext. apply Hfull.
  destruct (nth_error ds (S (S i))) as [c|] eqn:Hc;
    [|apply nth_error_None in Hc; lia].
  destruct (Hnth _ _ Hc) as [_ Hic].
  assert (HWP : W = P).
  { unfold W, peekWindow. fold P. unfold minReadBufferSize.
    unfold C in HPC. lia. }
  rewrite Ea, length_firstn, length_skipn, HWP. simpl in Hic. lia.
Qed.

Lemma overlap_law_witness :
  lastn 3 (bytesOf "abcdefghijklm"%string) = firstn 3 (bytesOf "klmnopqrstuvw"%string).
Proof.
  assert (Hsz : sizesExpected (applyOptions smallOpts))
    by (unfold sizesExpected, GoInt.MaxInt; simpl; lia).
  apply (overlap_law smallOpts (openEnv 3) [Bytes alphabet] 0
           (mkResult (mkSlice (bytesOf "abcdefghijklm"%string) 13) None)
           (mkResult (mkSlice (bytesOf "klmnopqrstuvw"%string) 13) None)
           Hsz eq_refl eq_refl eq_refl).
  - vm_compute. lia.
  - vm_compute. lia.
Defined.

(** ** C3: the derived fields of the configuration *)

(** C3.  [totalSize] is recomputed from the final sizes, but
    [smallChunkThreshold] is not: it keeps the value computed from the
    default sizes, whatever the options are.  With chunk size 10 and peek
    size 3 it is 6656, where one half of the final total size is 6. *)
Theorem threshold_not_recomputed :
  (forall opts,
      totalSize (applyOptions opts)
      = GoInt.add (chunkSize (applyOptions opts))
                  (peekSize (applyOptions opts))
      /\ smallChunkThreshold (applyOptions opts)
         = scaleByRatio (ChunkSize + PeekSize)) /\
  smallChunkThreshold (applyOptions smallOpts) = 6656%Z /\
  scaleByRatio (totalSize (applyOptions smallOpts)) = 6%Z.
Proof.
  split; [|split; reflexivity].
  intros opts. split; [reflexivity|].
  now rewrite applyOptions_threshold.
Qed.

(** ** C5: no empty result *)

(** C5.  Whatever the source, the configuration and the environment,
    every delivered result has a buffer that is not empty or an error
    that is not nil. *)
Theorem no_empty_result (env : list selectEnv) (reader : Reader)
  (config : chunkReaderConfig) :
  Forall (fun cr => ResultBytes cr <> [] \/ ResultError cr <> None)
         (delivered (readInChunks env reader config)).
Proof.
  unfold readInChunks.
  apply loop_delivered_Forall; [|apply NewReaderSize_bwf].
  intros b log cr rerr b' log' Hwf Hit.
  destruct (iteration_send_inv _ _ _ _ _ _ _ Hwf Hit)
    as (_ & _ & _ & _ & Herr & core & b1 & pd & _ & Hbytes & Hnil & _).
  destruct core as [|c core].
  - right. destruct (Hnil eq_refl) as (_ & _ & Hrep & _).
    unfold ResultError. rewrite Herr, Hrep.
    destruct rerr; [discriminate|discriminate Hrep].
  - left. rewrite Hbytes. discriminate.
Qed.

(** ** C6: the classification of the error of the read *)



(** ** C7 and C10: a reportable failure ends the run *)

(** C7.  When the read of a turn yields some bytes and then fails with a
    reportable error, and the run is not cancelled at that [select], the
    turn delivers one result that carries these bytes (followed by what
    the peek still obtained) and that error; the error is logged, the
    loop ends and the channel is closed: nothing follows. *)
Theorem partial_read_failure (fuel : nat) (config : chunkReaderConfig)
  (env env' : list selectEnv) (b : bufioReader) (log : list logEntry)
  core e b1 :
  bwf b -> usable config ->
  ReadFull b (Z.to_nat (chunkSize config)) = (core, Some e, b1) ->
  core <> [] ->
  isErrAndNotEOF (Some e) = true ->
  selectSend env = (SelSent, env') ->
  exists cr pd,
    loop (S fuel) config env b log
    = mkRun [cr] (log ++ [(e, readErrorMessage)]) Closed /\
    ResultBytes cr = core ++ pd /\ ResultError cr = Some e.
Proof.
  intros Hwf Hu HR Hne Hrep Hsel.
  destruct (iteration_spec config b log Hwf Hu)
    as (core0 & rerr0 & b0 & HR0 & Hcase).
  rewrite HR in HR0. injection HR0 as <- <- <-.
  destruct Hcase as [(? & _)|(_ & pd & pe & b2 & _ & Heq)]; [congruence|].
  simpl. rewrite Heq, Hsel. unfold logAfter. rewrite Hrep. simpl.
  eexists. exists pd. split; [reflexivity|]. split; reflexivity.
Qed.

Lemma partial_read_failure_witness :
  exists cr pd,
    loop 3 (applyOptions smallOpts) (openEnv 2)
         (NewReaderSize failingReader 10) []
    = mkRun [cr] [(ErrOther 7, readErrorMessage)] Closed /\
    ResultBytes cr = firstn 4 alphabet ++ pd /\
    ResultError cr = Some (ErrOther 7).
Proof.
  apply (partial_read_failure 2 (applyOptions smallOpts) (openEnv 2)
           (openEnv 1) (NewReaderSize failingReader 10) []
           (firstn 4 alphabet) (ErrOther 7) (mkBufio [] 16 None [])).
  - apply NewReaderSize_bwf.
  - unfold usable. vm_compute. split; discriminate.
  - reflexivity.
  - discriminate.
  - reflexivity.
  - reflexivity.
Defined.

(** C10.  When the read of a turn yields no byte and fails with a
    reportable error, and the run is not cancelled at that [select], the
    turn delivers one result with an empty buffer and that error; the
    loop ends and the channel is closed. *)
Theorem error_only_result (fuel : nat) (config : chunkReaderConfig)
  (env env' : list selectEnv) (b : bufioReader) (log : list logEntry)
  e b1 :
  bwf b -> usable config ->
  ReadFull b (Z.to_nat (chunkSize config)) = ([], Some e, b1) ->
  isErrAndNotEOF (Some e) = true ->
  selectSend env = (SelSent, env') ->
  exists cr,
    loop (S fuel) config env b log
    = mkRun [cr] (log ++ [(e, readErrorMessage)]) Closed /\
    ResultBytes cr = [] /\ ResultError cr = Some e.
Proof.
  intros Hwf Hu HR Hrep Hsel.
  destruct (iteration_spec config b log Hwf Hu)
    as (core0 & rerr0 & b0 & HR0 & Hcase).
  rewrite HR in HR0. injection HR0 as <- <- <-.
  destruct Hcase as [(_ & Heq)|(? & _)]; [|congruence].
  simpl. rewrite Heq, Hrep, Hsel. unfold logAfter. rewrite Hrep. simpl.
  eexists. split; [reflexivity|]. split; reflexivity.
Qed.

Lemma error_only_result_witness :
  exists cr,
    loop 2 (applyOptions smallOpts) (openEnv 1)
         (NewReaderSize [Fail (ErrOther 7)] 10) []
    = mkRun [cr] [(ErrOther 7, readErrorMessage)] Closed /\
    ResultBytes cr = [] /\ ResultError cr = Some (ErrOther 7).
Proof.
  apply (error_only_result 1 (applyOptions smallOpts) (openEnv 1) []
           (NewReaderSize [Fail (ErrOther 7)] 10) []
           (ErrOther 7) (mkBufio [] 16 None [])).
  - apply NewReaderSize_bwf.
  - unfold usable. vm_compute. split; discriminate.
  - reflexivity.
  - reflexivity.
  - reflexivity.
Defined.

(** ** C8: cancellation *)

(** C8, as stated, fails: the channel is buffered, so that with a
    cancelled context both cases of the [select] can proceed, and the
    runtime may pick the send. *)
Lemma cancellation_counterexample : ~ cancelledDeliversNothing.
Proof.
  intros H.
  destruct (H [mkEnv true true true] [Bytes alphabet]
              (applyOptions smallOpts)) as [Hd _].
  - unfold usable. vm_compute. split; discriminate.
  - split; [discriminate|reflexivity].
  - vm_compute in Hd. discriminate Hd.
Qed.

(** C8, amended.  From any turn of the loop, when the [select] takes
    the cancellation case, the pending result is not delivered, nothing
    is delivered after it, and the channel is closed; when this happens
    in the first turn the run delivers nothing at all.  With a context
    that is already cancelled the [select] takes the cancellation case
    when the channel is full, or when the runtime picks it among the two
    ready cases. *)
Theorem cancellation_stops (fuel : nat) (config : chunkReaderConfig)
  (env env' : list selectEnv) (b : bufioReader) (log : list logEntry)
  (reader : Reader) :
  bwf b -> usable config ->
  selectSend env = (SelDone, env') ->
  (delivered (loop (S fuel) config env b log) = []
   /\ final (loop (S fuel) config env b log) = Closed) /\
  (delivered (readInChunks env reader config) = []
   /\ final (readInChunks env reader config) = Closed) /\
  (forall e rest, ctxDone e = true ->
     sendReady e = false \/ pickSend e = false ->
     selectSend (e :: rest) = (SelDone, rest)).
Proof.
  intros Hwf Hu Hsel.
  assert (Hstop : forall fuel' b0 log0,
            bwf b0 ->
            delivered (loop (S fuel') config env b0 log0) = []
            /\ final (loop (S fuel') config env b0 log0) = Closed).
  { intros fuel' b0 log0 Hwf0. simpl.
    destruct (iteration_spec config b0 log0 Hwf0 Hu)
      as (core & rerr & b1 & _ & Hcase).
    destruct Hcase as [(_ & ->)|(_ & pd & pe & b2 & _ & ->)].
    - destruct (isErrAndNotEOF rerr); [rewrite Hsel|]; auto.
    - rewrite Hsel. auto. }
  split; [apply Hstop; assumption|].
  split; [unfold readInChunks; apply Hstop; apply NewReaderSize_bwf|].
  intros e rest Hdone Hpick. simpl. rewrite Hdone.
  destruct Hpick as [-> | ->]; [reflexivity|].
  destruct (sendReady e); reflexivity.
Qed.

Lemma cancellation_stops_witness :
  delivered (readInChunks [mkEnv false false true; mkEnv true false true]
                          [Bytes alphabet] (applyOptions smallOpts)) = []
  /\ final (readInChunks [mkEnv false false true; mkEnv true false true]
                         [Bytes alphabet] (applyOptions smallOpts)) = Closed.
Proof.
  apply (cancellation_stops 0 (applyOptions smallOpts)
           [mkEnv false false true; mkEnv true false true] []
           (NewReaderSize [Bytes alphabet] 10) [] [Bytes alphabet]).
  - apply NewReaderSize_bwf.
  - unfold usable. vm_compute. split; discriminate.
  - reflexivity.
Defined.

(** ** C9: small chunks are tightly sized *)

(** C9.  In every run, a delivered buffer whose size is below
    [smallChunkThreshold] has a capacity equal to its length; in the turn
    that builds it, it is made of the bytes read followed by the bytes
    peeked. *)
Theorem small_chunk_tight (env : list selectEnv) (reader : Reader)
  (config : chunkReaderConfig) :
  Forall (fun cr =>
            (Z.of_nat (length (ResultBytes cr))
             < smallChunkThreshold config)%Z ->
            cap (data cr) = length (ResultBytes cr))
         (delivered (readInChunks env reader config)) /\
  (forall b log cr rerr b' log',
      bwf b -> iteration config b log = IterSend cr rerr b' log' ->
      exists core b1 pd,
        ReadFull b (Z.to_nat (chunkSize config)) = (core, rerr, b1) /\
        ResultBytes cr = core ++ pd /\
        (core <> [] ->
         exists pe, Peek b1 (totalSize config - Z.of_nat (length core))
                    = (pd, pe, b')) /\
        ((Z.of_nat (length core + length pd)
          < smallChunkThreshold config)%Z ->
         cap (data cr) = length core + length pd)).
Proof.
  assert (Hturn : forall b log cr rerr b' log',
      bwf b -> iteration config b log = IterSend cr rerr b' log' ->
      exists core b1 pd,
        ReadFull b (Z.to_nat (chunkSize config)) = (core, rerr, b1) /\
        ResultBytes cr = core ++ pd /\
        (core <> [] ->
         exists pe, Peek b1 (totalSize config - Z.of_nat (length core))
                    = (pd, pe, b')) /\
        ((Z.of_nat (length core + length pd)
          < smallChunkThreshold config)%Z ->
         cap (data cr) = length core + length pd)).
  { intros b log cr rerr b' log' Hwf Hit.
    destruct (iteration_send_inv _ _ _ _ _ _ _ Hwf Hit)
      as (_ & _ & _ & _ & _ & core & b1 & pd & HR & Hbytes & Hnil & Hcons).
    exists core, b1, pd.
    split; [assumption|]. split; [assumption|].
    split; [intros Hne; apply (Hcons Hne)|].
    intros Hsmall. destruct core as [|c core].
    - destruct (Hnil eq_refl) as (-> & -> & _). reflexivity.
    - destruct (Hcons ltac:(discriminate)) as [Hcap _].
      rewrite Hcap. unfold sentCap.
      apply Z.ltb_lt in Hsmall. now rewrite Hsmall. }
  split; [|exact Hturn].
  unfold readInChunks.
  apply loop_delivered_Forall; [|apply NewReaderSize_bwf].
  intros b log cr rerr b' log' Hwf Hit Hsmall.
  destruct (Hturn _ _ _ _ _ _ Hwf Hit)
    as (core & b1 & pd & _ & Hbytes & _ & Hcap).
  rewrite Hbytes, length_app in *. auto.
Qed.

(** * Further properties of the code *)

(** ** The options, chunker.go lines 42-50 and 81-96 *)

Lemma fold_options_chosen (opts : list ConfigOption) :
  forall c,
    fold_left (fun c opt => callOption opt c) opts c
    = mkConfig (chosenChunk opts (chunkSize c)) (totalSize c)
               (chosenPeek opts (peekSize c)) (smallChunkThreshold c).
Proof.
  induction opts as [|opt opts IH]; intros c; simpl.
  - now destruct c.
  - rewrite IH. destruct opt; reflexivity.
Qed.

Lemma options_last_wins_eq (opts : list ConfigOption) :
  applyOptions opts
  = mkConfig (chosenChunk opts ChunkSize)
             (GoInt.add (chosenChunk opts ChunkSize)
                        (chosenPeek opts PeekSize))
             (chosenPeek opts PeekSize)
             (scaleByRatio (ChunkSize + PeekSize)).
Proof.
  unfold applyOptions. rewrite fold_options_chosen. reflexivity.
Qed.

(** X1.  The last option of a field wins and the two fields do not
    interfere: the built configuration holds the size of the last
    [WithChunkSize] (or the default), the size of the last [WithPeekSize]
    (or the default), their sum as a Go [int], and the threshold of the
    defaults. *)
Theorem options_last_wins (opts : list ConfigOption) :
  applyOptions opts
  = mkConfig (chosenChunk opts ChunkSize)
             (GoInt.add (chosenChunk opts ChunkSize)
                        (chosenPeek opts PeekSize))
             (chosenPeek opts PeekSize)
             (scaleByRatio (ChunkSize + PeekSize)).
Proof. exact (options_last_wins_eq opts). Qed.

Lemma chosenChunk_app opts1 opts2 d :
  chosenChunk (opts1 ++ opts2) d = chosenChunk opts2 (chosenChunk opts1 d).
Proof.
  revert d. induction opts1 as [|[c|p] opts1 IH]; intros d; simpl; auto.
Qed.

Lemma chosenPeek_app opts1 opts2 d :
  chosenPeek (opts1 ++ opts2) d = chosenPeek opts2 (chosenPeek opts1 d).
Proof.
  revert d. induction opts1 as [|[c|p] opts1 IH]; intros d; simpl; auto.
Qed.

(** X2.  Options compose: an option given last overrides whatever was
    set for its field before and leaves the other field alone, and two
    options on different fields can be swapped. *)
Theorem options_override (opts : list ConfigOption) (c p : Z) :
  chunkSize (applyOptions (opts ++ [WithChunkSize c])) = c /\
  peekSize (applyOptions (opts ++ [WithChunkSize c]))
  = peekSize (applyOptions opts) /\
  peekSize (applyOptions (opts ++ [WithPeekSize p])) = p /\
  chunkSize (applyOptions (opts ++ [WithPeekSize p]))
  = chunkSize (applyOptions opts) /\
  applyOptions (opts ++ [WithChunkSize c; WithPeekSize p])
  = applyOptions (opts ++ [WithPeekSize p; WithChunkSize c]).
Proof.
  rewrite !options_last_wins_eq.
  cbn [chunkSize peekSize].
  rewrite !chosenChunk_app, !chosenPeek_app. simpl. repeat split.
Qed.

(** ** [isErrAndNotEOF], chunker.go lines 157-165 *)

Lemma errors_Is_rootCause (e target : error) :
  (forall i x, target <> Wrap i x) ->
  errors_Is e target = error_eqb (rootCause e) target.
Proof.
  intros Hsentinel. induction e; simpl; try now rewrite orb_false_r.
  rewrite IHe.
  destruct target; simpl; try reflexivity.
  exfalso. eapply Hsentinel. reflexivity.
Qed.


(** ** Sizes that make the goroutine panic, chunker.go lines 93 and
    114-115 *)

Lemma usable_iff_sizes (opts : list ConfigOption) :
  GoInt.inRange (chunkSize (applyOptions opts)) ->
  GoInt.inRange (peekSize (applyOptions opts)) ->
  (usable (applyOptions opts) <->
   (0 <= chunkSize (applyOptions opts) /\ 0 <= peekSize (applyOptions opts)
    /\ chunkSize (applyOptions opts) + peekSize (applyOptions opts)
       <= GoInt.MaxInt)%Z).
Proof.
  unfold usable. rewrite applyOptions_total.
  remember (chunkSize (applyOptions opts)) as C eqn:HC. clear HC.
  remember (peekSize (applyOptions opts)) as P eqn:HP. clear HP.
  unfold GoInt.inRange, GoInt.add, GoInt.wrap, GoInt.MinInt, GoInt.MaxInt.
  change (2 ^ 63)%Z with 9223372036854775808%Z.
  change (2 ^ 64)%Z with 18446744073709551616%Z.
  intros HCr HPr.
  Z.div_mod_to_equations. lia.
Qed.

Lemma loop_never_panics (config : chunkReaderConfig) :
  usable config ->
  forall fuel env b log,
    bwf b -> final (loop fuel config env b log) <> Panicked.
Proof.
  intros Hu. induction fuel as [|fuel IH]; intros env b log Hwf; simpl;
    [discriminate|].
  destruct (iteration config b log) as [|b' log'|cr rerr b' log'] eqn:Hit;
    simpl; try discriminate.
  - destruct (iteration_spec config b log Hwf Hu)
      as (? & rerr0 & ? & _ & [(_ & Heq)|(_ & ? & ? & ? & _ & Heq)]);
      rewrite Heq in Hit; [|discriminate].
    destruct (isErrAndNotEOF rerr0); discriminate.
  - destruct (iteration_send_inv _ _ _ _ _ _ _ Hwf Hit) as (_ & Hw' & _).
    destruct (selectSend env) as [[| |] env'] eqn:Hsel; simpl;
      try discriminate.
    destruct (isSome rerr); simpl; [discriminate|]. now apply IH.
Qed.



(** ** Edge inputs of the producer, chunker.go lines 112-151 *)

Lemma ReadFull_zero (b : bufioReader) : ReadFull b 0 = ([], None, b).
Proof. reflexivity. Qed.

Lemma zero_chunk_size_delivers_nothing_eq (env : list selectEnv)
  (reader : Reader) (config : chunkReaderConfig) :
  chunkSize config = 0%Z -> (0 <= totalSize config)%Z ->
  readInChunks env reader config = mkRun [] [] Closed.
Proof.
  intros HC HT. unfold readInChunks.
  assert (Hu : usable config) by (unfold usable; lia).
  cbn [loop].
  destruct (iteration_spec config (NewReaderSize reader (chunkSize config)) []
              (NewReaderSize_bwf _ _) Hu)
    as (core & rerr & b1 & HR & Hcase).
  rewrite HC in HR. change (Z.to_nat 0) with 0 in HR.
  rewrite ReadFull_zero in HR. injection HR as <- <- <-.
  destruct Hcase as [(_ & ->)|(Hne & _)]; [reflexivity|congruence].
Qed.

(** X5.  With a chunk size of zero (and a peek size that is not
    negative) the producer reads nothing and delivers nothing: the first
    read asks for no byte, and the loop takes this for the end of the
    stream and closes the channel, whatever the source holds. *)
Theorem zero_chunk_size_delivers_nothing (env : list selectEnv)
  (reader : Reader) (config : chunkReaderConfig) :
  chunkSize config = 0%Z -> (0 <= totalSize config)%Z ->
  readInChunks env reader config = mkRun [] [] Closed.
Proof. exact (zero_chunk_size_delivers_nothing_eq env reader config). Qed.

Lemma zero_chunk_size_delivers_nothing_witness :
  readInChunks (openEnv 2) [Bytes alphabet]
               (applyOptions [WithChunkSize 0])
  = mkRun [] [] Closed.
Proof.
  apply (zero_chunk_size_delivers_nothing (openEnv 2) [Bytes alphabet]
           (applyOptions [WithChunkSize 0])).
  - reflexivity.
  - vm_compute. discriminate.
Defined.

(** X6.  A source without bytes (and without failure) delivers nothing:
    the producer returns at its first read, before any [select], so that
    the channel is closed even when the consumer never reads and the
    context is never cancelled. *)
Theorem empty_source_delivers_nothing (env : list selectEnv)
  (reader : Reader) (config : chunkReaderConfig) :
  usable config ->
  noFailure reader = true -> content reader = [] ->
  readInChunks env reader config = mkRun [] [] Closed.
Proof.
  intros Hu Hnf Hempty.
  destruct (Z.eq_dec (chunkSize config) 0) as [H0|Hpos].
  { apply zero_chunk_size_delivers_nothing_eq; [assumption|].
    unfold usable in Hu. lia. }
  assert (HC : (0 < chunkSize config)%Z) by (unfold usable in Hu; lia).
  set (b := NewReaderSize reader (chunkSize config)).
  assert (Hcl : bclean b)
    by (unfold bclean, bwf, b, NewReaderSize; cbn [buf bsize berr rd length];
        auto with arith).
  assert (Hsz : 0 < bsize b)
    by (unfold b, NewReaderSize, minReadBufferSize; cbn [bsize]; lia).
  destruct (iteration_clean config Hu HC _ _ eq_refl eq_refl b [] Hcl Hsz)
    as [Hnil _].
  destruct (Hnil Hempty) as (b' & Hit).
  unfold readInChunks. fold b. cbn [loop]. now rewrite Hit.
Qed.

Lemma empty_source_delivers_nothing_witness :
  readInChunks [] [Bytes []; BytesErr [] EOF] (applyOptions smallOpts)
  = mkRun [] [] Closed.
Proof.
  apply (empty_source_delivers_nothing [] [Bytes []; BytesErr [] EOF]
           (applyOptions smallOpts)).
  - unfold usable. vm_compute. split; discriminate.
  - reflexivity.
  - reflexivity.
Defined.

(** ** What every run keeps, chunker.go lines 112-151 *)

(** X7.  Whatever the source does, a delivered buffer never exceeds the
    total size: its length is at most its capacity, and its capacity is
    at most [totalSize] (the working buffer is never grown by
    [append]). *)
Theorem result_size_bounded (env : list selectEnv) (reader : Reader)
  (config : chunkReaderConfig) :
  Forall (fun cr => length (ResultBytes cr) <= cap (data cr)
                    /\ (Z.of_nat (cap (data cr)) <= totalSize config)%Z)
         (delivered (readInChunks env reader config)).
Proof.
  unfold readInChunks.
  apply loop_delivered_Forall; [|apply NewReaderSize_bwf].
  intros b log cr rerr b' log' Hwf Hit.
  destruct (iteration_send_inv _ _ _ _ _ _ _ Hwf Hit)
    as ([Hc0 HcT] & _ & _ & _ & _ & core & b1 & pd & HR & Hbytes
        & Hnil & Hcons).
  destruct (ReadFull_spec Hwf HR) as (_ & Hw1 & Hl & _).
  destruct core as [|c core].
  - destruct (Hnil eq_refl) as (-> & Hd & _).
    unfold ResultBytes. rewrite Hd. simpl. lia.
  - destruct (Hcons ltac:(discriminate)) as (Hcap & pe & HP).
    assert (Hpl : length pd
                  <= Z.to_nat (totalSize config
                               - Z.of_nat (length (c :: core))))
      by (eapply Peek_length; [exact Hw1| |exact HP]; lia).
    rewrite Hbytes, Hcap, length_app. unfold sentCap.
    destruct (Z.of_nat (length (c :: core) + length pd)
              <? smallChunkThreshold config)%Z; lia.
Qed.

(** X8.  Only the last delivered result can be short or carry an error:
    every delivered result before the last has no error and holds at
    least [chunkSize] bytes.  A delivered result with an error is the
    last one; the channel is then closed and the log holds exactly that
    error. *)
Theorem only_last_result_ends (env : list selectEnv) (reader : Reader)
  (config : chunkReaderConfig) :
  let r := readInChunks env reader config in
  Forall (fun cr => ResultError cr = None
                    /\ Z.to_nat (chunkSize config)
                       <= length (ResultBytes cr))
         (removelast (delivered r)) /\
  (forall cr e, In cr (delivered r) -> ResultError cr = Some e ->
     last (delivered r) cr = cr /\ final r = Closed
     /\ logged r = [(e, readErrorMessage)]).
Proof.
  unfold readInChunks.
  generalize (NewReaderSize_bwf reader (chunkSize config)).
  generalize (NewReaderSize reader (chunkSize config)) as b.
  generalize (S (length env)) as fuel.
  assert (Hgen : forall fuel env b log, bwf b ->
    let r := loop fuel config env b log in
    Forall (fun cr => ResultError cr = None
                      /\ Z.to_nat (chunkSize config)
                         <= length (ResultBytes cr))
           (removelast (delivered r)) /\
    (forall cr e, In cr (delivered r) -> ResultError cr = Some e ->
       last (delivered r) cr = cr /\ final r = Closed
       /\ logged r = log ++ [(e, readErrorMessage)])).
  { clear env. induction fuel as [|fuel IH]; intros env b log Hwf; simpl.
    { split; [constructor|intros ? ? []]. }
    destruct (iteration config b log) as [|b' log'|cr rerr b' log'] eqn:Hit;
      simpl; try (split; [constructor|intros ? ? []]).
    destruct (iteration_send_inv _ _ _ _ _ _ _ Hwf Hit)
      as (_ & Hw' & _ & Hlog & Herr & core & b1 & pd & HR & Hbytes & _).
    destruct (ReadFull_spec Hwf HR) as (_ & _ & _ & Hfull).
    destruct (selectSend env) as [[| |] env'] eqn:Hsel; simpl;
      try (split; [constructor|intros ? ? []]).
    destruct rerr as [x|]; simpl.
    - split; [constructor|].
      intros cr0 e [<-|[]] He. unfold ResultError in He.
      rewrite Herr in He. unfold logAfter in Hlog.
      destruct (isErrAndNotEOF (Some x)); [|discriminate].
      injection He as ->. auto.
    - assert (Hlen : length core = Z.to_nat (chunkSize config))
        by (apply Hfull; reflexivity).
      unfold logAfter in Hlog. subst log'.
      destruct (IH env' b' log Hw') as [Hall Herrs].
      set (rest := delivered (loop fuel config env' b' log)) in *.
      split.
      + destruct rest as [|r1 rest']; [constructor|].
        change (removelast (cr :: r1 :: rest'))
          with (cr :: removelast (r1 :: rest')).
        constructor; [|assumption].
        unfold ResultError. rewrite Herr, Hbytes, length_app. simpl.
        split; [reflexivity|lia].
      + intros cr0 e [<-|Hin] He.
        * unfold ResultError in He. rewrite Herr in He. discriminate.
        * destruct (Herrs cr0 e Hin He) as (Hlast & Hf & Hl).
          split; [|auto].
          destruct rest as [|r1 rest']; [destruct Hin|]. exact Hlast. }
  intros fuel b Hwf. exact (Hgen fuel env b [] Hwf).
Qed.

Lemma selectSend_sent_count (env : list selectEnv) env' :
  selectSend env = (SelSent, env') ->
  S (readyCount env') <= readyCount env.
Proof.
  unfold readyCount. revert env'.
  induction env as [|e env IH]; simpl; intros env' H; [discriminate|].
  destruct (ctxDone e), (sendReady e); simpl.
  - destruct (pickSend e); [|discriminate]. injection H as <-. lia.
  - discriminate.
  - injection H as <-. lia.
  - auto.
Qed.

(** X9.  Backpressure: whatever the source does, the producer delivers
    at most as many results as there are observations at which the
    channel had room; with a channel that never has room nothing is
    delivered. *)
Theorem delivered_within_room (env : list selectEnv) (reader : Reader)
  (config : chunkReaderConfig) :
  length (delivered (readInChunks env reader config)) <= readyCount env.
Proof.
  unfold readInChunks.
  generalize (NewReaderSize reader (chunkSize config)) as b.
  generalize (@nil logEntry) as log.
  generalize (S (length env)) as fuel. revert env.
  intros env fuel. revert env.
  induction fuel as [|fuel IH]; intros env log b; simpl; [lia|].
  destruct (iteration config b log) as [|b' log'|cr rerr b' log'];
    simpl; try lia.
  destruct (selectSend env) as [[| |] env'] eqn:Hsel; simpl; try lia.
  apply selectSend_sent_count in Hsel.
  destruct (isSome rerr); simpl; [lia|].
  specialize (IH env' log' b'). lia.
Qed.

(** ** The environment only cuts the run short *)

Lemma prefixOf_nil {A : Type} (l : list A) : prefixOf [] l.
Proof. exists l. reflexivity. Qed.

Lemma prefixOf_cons {A : Type} (x : A) (l1 l2 : list A) :
  prefixOf l1 l2 -> prefixOf (x :: l1) (x :: l2).
Proof. intros [tl ->]. exists tl. reflexivity. Qed.

Lemma selectSend_shorter_sent (env : list selectEnv) env' :
  selectSend env = (SelSent, env') -> length env' < length env.
Proof.
  intros H. eapply selectSend_shorter; [exact H|discriminate].
Qed.

Lemma loop_prefix_of_open (config : chunkReaderConfig) :
  forall fuel env b log m,
    length env <= m ->
    prefixOf (delivered (loop fuel config env b log))
             (delivered (loop fuel config (openEnv m) b log)).
Proof.
  induction fuel as [|fuel IH]; intros env b log m Hm; simpl;
    [apply prefixOf_nil|].
  destruct (iteration config b log) as [|b' log'|cr rerr b' log'];
    simpl; try apply prefixOf_nil.
  destruct (selectSend env) as [[| |] env'] eqn:Hsel; simpl;
    try apply prefixOf_nil.
  apply selectSend_shorter_sent in Hsel.
  destruct m as [|m]; [lia|].
  simpl.
  destruct (isSome rerr); simpl.
  - apply prefixOf_cons, prefixOf_nil.
  - apply prefixOf_cons, IH. lia.
Qed.

(** X10.  Cancellation and backpressure never change or reorder what is
    produced: for any source and configuration, the results delivered
    under any environment are a prefix of the results delivered when the
    context is never done and the channel always has room. *)
Theorem delivered_prefix_of_uncancelled (env : list selectEnv)
  (reader : Reader) (config : chunkReaderConfig) :
  prefixOf (delivered (readInChunks env reader config))
           (delivered (readInChunks (openEnv (length env)) reader config)).
Proof.
  unfold readInChunks, openEnv. rewrite repeat_length.
  apply loop_prefix_of_open. lia.
Qed.

(** ** Sources without failure *)



(** X12.  The end of the stream is not an error: on a source read
    without failure no delivered result carries an error and nothing is
    logged, also when the source ends in the middle of a chunk
    ([io.ErrUnexpectedEOF]) and whatever the environment does. *)
Theorem end_of_stream_not_reported (opts : list ConfigOption)
  (env : list selectEnv) (reader : Reader) :
  sizesExpected (applyOptions opts) ->
  noFailure reader = true ->
  Forall (fun cr => ResultError cr = None)
         (delivered (NewChunkReader opts env reader))
  /\ logged (NewChunkReader opts env reader) = [].
Proof.
  intros Hsz Hnf.
  destruct (clean_run_prefix opts env reader Hsz Hnf) as (_ & Hall & Hlog).
  split; assumption.
Qed.

Lemma end_of_stream_not_reported_witness :
  logged (NewChunkReader smallOpts (openEnv 3)
            [Bytes (firstn 7 alphabet); BytesErr (skipn 7 alphabet) EOF])
  = [].
Proof.
  apply (end_of_stream_not_reported smallOpts (openEnv 3)
           [Bytes (firstn 7 alphabet); BytesErr (skipn 7 alphabet) EOF]).
  - unfold sizesExpected, GoInt.MaxInt. simpl. lia.
  - reflexivity.
Defined.

Lemma concat_expected_no_peek (C : nat) (s : list byte) :
  0 < C -> concat (expectedChunks C 0 s) = s.
Proof.
  intros HC. induction s as [|s Hne IH] using (chunk_ind C HC);
    [reflexivity|].
  rewrite expectedChunks_cons by assumption. simpl.
  rewrite IH, Nat.add_0_r. apply firstn_skipn.
Qed.

(** X13.  Without a peek there is no overlap: with a peek size of zero,
    on a source read without failure and a run that is not cancelled,
    the delivered buffers are a partition of the source, and their
    concatenation is the source. *)
Theorem no_peek_partition (opts : list ConfigOption) (env : list selectEnv)
  (reader : Reader) :
  sizesExpected (applyOptions opts) ->
  peekSize (applyOptions opts) = 0%Z ->
  noFailure reader = true ->
  neverDone env = true ->
  ceilDiv (length (content reader))
          (Z.to_nat (chunkSize (applyOptions opts))) <= readyCount env ->
  concat (map ResultBytes (delivered (NewChunkReader opts env reader)))
  = content reader.
Proof.
  intros Hsz HP Hnf Hnd Hroom.
  destruct (clean_run_complete opts env reader Hsz Hnf Hnd Hroom) as [Hd _].
  rewrite Hd.
  replace (peekWindow (applyOptions opts)) with 0
    by (unfold peekWindow; rewrite HP; reflexivity).
  apply concat_expected_no_peek. destruct Hsz as (? & _). lia.
Qed.

Lemma no_peek_partition_witness :
  concat (map ResultBytes
            (delivered
               (NewChunkReader [WithChunkSize 10; WithPeekSize 0]
                  (openEnv 3) [Bytes alphabet])))
  = alphabet.
Proof.
  apply (no_peek_partition [WithChunkSize 10; WithPeekSize 0]
           (openEnv 3) [Bytes alphabet]).
  - unfold sizesExpected, GoInt.MaxInt. simpl. lia.
  - reflexivity.
  - reflexivity.
  - reflexivity.
  - vm_compute. lia.
Defined.

(** ** The goroutine does not leak *)

Lemma selectSend_ends_cancelled (d : selectEnv) :
  cancelledFull d = true ->
  forall env0 r env',
    selectSend (env0 ++ [d]) = (r, env') ->
    r <> SelBlocked /\ (r = SelSent -> exists env1, env' = env1 ++ [d]).
Proof.
  unfold cancelledFull. intros Hd.
  apply andb_true_iff in Hd as [Hdone Hfull].
  apply negb_true_iff in Hfull.
  induction env0 as [|e env0 IH]; intros r env' H; simpl in H.
  - rewrite Hdone, Hfull in H. injection H as <- <-.
    split; [discriminate|discriminate].
  - destruct (ctxDone e), (sendReady e).
    + destruct (pickSend e); injection H as <- <-.
      * split; [discriminate|]. eauto.
      * split; discriminate.
    + injection H as <- <-. split; discriminate.
    + injection H as <- <-. split; [discriminate|]. eauto.
    + eauto.
Qed.

Lemma loop_not_blocked (config : chunkReaderConfig) (d : selectEnv) :
  cancelledFull d = true ->
  forall fuel env0 b log,
    final (loop fuel config (env0 ++ [d]) b log) <> Blocked.
Proof.
  intros Hd. induction fuel as [|fuel IH]; intros env0 b log; simpl;
    [discriminate|].
  destruct (iteration config b log) as [|b' log'|cr rerr b' log'];
    simpl; try discriminate.
  destruct (selectSend (env0 ++ [d])) as [r env'] eqn:Hsel.
  destruct (selectSend_ends_cancelled d Hd env0 r env' Hsel) as [Hnb Hsent].
  destruct r; simpl; try discriminate; [|congruence].
  destruct (Hsent eq_refl) as (env1 & ->).
  destruct (isSome rerr); simpl; [discriminate|]. apply IH.
Qed.



(** A full channel and a context that is not done: the goroutine
    waits. *)
Example waits_at_full_channel :
  summary (readInChunks [mkEnv false true true; mkEnv false false true]
             [Bytes alphabet] (applyOptions smallOpts))
  = ([(bytesOf "abcdefghijklm"%string, 13, None)], [], Blocked).
Proof. vm_compute. reflexivity. Qed.

(** ** The error of the peek, chunker.go line 118 *)

Lemma ReadFull_exact_segment (bsz : nat) (s : list byte) (r : Reader) :
  s <> [] ->
  ReadFull (mkBufio [] bsz None (Bytes s :: r)) (length s)
  = (s, None, mkBufio [] bsz None r).
Proof.
  intros Hne. destruct s as [|c s]; [congruence|].
  remember (c :: s) as seg eqn:Hseg.
  assert (Hlen : 0 < length seg) by (subst seg; simpl; lia).
  assert (Hread : forall k, length seg <= k ->
            Read (Bytes seg :: r) k = (seg, None, r)).
  { intros k Hk. subst seg. rewrite Read_segment.
    rewrite firstn_all2 by assumption.
    replace (length (c :: s) <=? k) with true
      by (symmetry; now apply Nat.leb_le).
    reflexivity. }
  clear Hseg.
  assert (Hbr : bufioRead (mkBufio [] bsz None (Bytes seg :: r)) (length seg)
                = (seg, None, mkBufio [] bsz None r)).
  { unfold bufioRead. cbn [buf berr bsize rd length].
    replace (length seg =? 0) with false
      by (symmetry; apply Nat.eqb_neq; lia).
    rewrite Nat.eqb_refl.
    destruct (bsz <=? length seg) eqn:Hlarge.
    - rewrite Hread by lia. reflexivity.
    - apply Nat.leb_gt in Hlarge. rewrite Hread by lia.
      replace (length seg =? 0) with false
        by (symmetry; apply Nat.eqb_neq; lia).
      rewrite firstn_all, skipn_all. reflexivity. }
  unfold ReadFull, ReadAtLeast. rewrite Nat.ltb_irrefl.
  cbn [readAtLeast_loop length].
  replace (0 <? length seg) with true
    by (symmetry; apply Nat.ltb_lt; lia).
  rewrite Nat.sub_0_r, Hbr. cbn [app].
  destruct (length seg) as [|n] eqn:Hn; [lia|].
  cbn [readAtLeast_loop]. rewrite Hn, Nat.ltb_irrefl.
  cbv beta iota. rewrite Hn, Nat.leb_refl. reflexivity.
Qed.

Lemma Peek_hits_failure (bsz p : nat) (e : error) (r : Reader) :
  0 < p -> p <= bsz ->
  Peek (mkBufio [] bsz None (Fail e :: r)) (Z.of_nat p)
  = ([], Some e, mkBufio [] bsz None r).
Proof.
  intros Hp Hb. unfold Peek.
  replace (Z.of_nat p <? 0)%Z with false
    by (symmetry; apply Z.ltb_ge; lia).
  rewrite Nat2Z.id. cbn [bsize].
  assert (Hfill : peek_fill (S bsz) p (mkBufio [] bsz None (Fail e :: r))
                  = mkBufio [] bsz (Some e) r).
  { cbn [peek_fill buf bsize berr length isNone].
    replace (0 <? p) with true by (symmetry; apply Nat.ltb_lt; lia).
    replace (0 <? bsz) with true by (symmetry; apply Nat.ltb_lt; lia).
    cbn [andb].
    assert (Hf : fill (mkBufio [] bsz None (Fail e :: r))
                 = mkBufio [] bsz (Some e) r) by reflexivity.
    rewrite Hf. destruct bsz as [|m]; [lia|].
    cbn [peek_fill buf bsize berr length isNone].
    now rewrite andb_false_r. }
  rewrite Hfill. cbn [bsize buf length].
  replace (bsz <? p) with false by (symmetry; apply Nat.ltb_ge; lia).
  replace (0 <? p) with true by (symmetry; apply Nat.ltb_lt; lia).
  reflexivity.
Qed.

(** X15.  The error of the peek is discarded (line 118), and with it a
    failure of the source: when the source fails once right after a
    full chunk, the call that meets the failure is the peek; the chunk
    is delivered without peeked bytes and without error, nothing is
    logged, and the run goes on with what the source returns next, as
    if the failure had not happened (for a peek size that fits the
    buffer of the buffered reader). *)
Theorem failure_during_peek_is_lost (opts : list ConfigOption)
  (o : selectEnv) (env : list selectEnv) (s : list byte) (e : error)
  (rest : Reader) :
  sizesExpected (applyOptions opts) ->
  (1 <= peekSize (applyOptions opts)
   <= Z.max (chunkSize (applyOptions opts)) minReadBufferSize)%Z ->
  length s = Z.to_nat (chunkSize (applyOptions opts)) ->
  ctxDone o = false -> sendReady o = true ->
  exists cr,
    ResultBytes cr = s /\ ResultError cr = None /\
    NewChunkReader opts (o :: env) (Bytes s :: Fail e :: rest)
    = emit cr (NewChunkReader opts env rest).
Proof.
  intros Hsz HP Hlen Hdone Hready.
  pose proof (sizesExpected_total opts Hsz) as HT.
  destruct Hsz as (HC & HP0 & Hmax).
  unfold NewChunkReader, readInChunks.
  remember (applyOptions opts) as config eqn:Hconfig. clear Hconfig.
  assert (Hu : usable config) by (unfold usable; lia).
  assert (Hne : s <> []).
  { intros ->. cbn [length] in Hlen. lia. }
  set (b0 := NewReaderSize (Bytes s :: Fail e :: rest) (chunkSize config)).
  destruct (iteration_spec config b0 [] (NewReaderSize_bwf _ _) Hu)
    as (core & rerr & b1 & HR & Hcase).
  rewrite <- Hlen in HR. unfold b0, NewReaderSize in HR.
  rewrite ReadFull_exact_segment in HR by assumption.
  injection HR as <- <- <-.
  destruct Hcase as [(? & _)|(_ & pd & pe & b2 & HPk & Hit)];
    [congruence|].
  replace (totalSize config - Z.of_nat (length s))%Z
    with (Z.of_nat (Z.to_nat (peekSize config))) in HPk by lia.
  rewrite Peek_hits_failure in HPk by (unfold minReadBufferSize in *; lia).
  injection HPk as <- <- <-.
  eexists. split; [|split]; cycle 2.
  - cbn [length loop]. rewrite Hit.
    assert (Hsel : selectSend (o :: env) = (SelSent, env))
      by (simpl; rewrite Hdone, Hready; reflexivity).
    rewrite Hsel. cbn [isSome logAfter]. reflexivity.
  - unfold ResultBytes. cbn [data elems]. apply app_nil_r.
  - reflexivity.
Qed.

Lemma failure_during_peek_is_lost_witness :
  exists cr,
    ResultBytes cr = firstn 10 alphabet /\ ResultError cr = None /\
    NewChunkReader smallOpts (mkEnv false true true :: openEnv 2)
      (Bytes (firstn 10 alphabet) :: Fail (ErrOther 7)
       :: [Bytes (skipn 10 alphabet)])
    = emit cr (NewChunkReader smallOpts (openEnv 2)
                 [Bytes (skipn 10 alphabet)]).
Proof.
  apply (failure_during_peek_is_lost smallOpts (mkEnv false true true)
           (openEnv 2) (firstn 10 alphabet) (ErrOther 7)
           [Bytes (skipn 10 alphabet)]).
  - unfold sizesExpected, GoInt.MaxInt. simpl. lia.
  - vm_compute. split; discriminate.
  - reflexivity.
  - reflexivity.
  - reflexivity.
Defined.
